(** * tick: vector operations, dense and CSR arrays, binary array codec

    A shallow embedding of [lib/include/tick/array/vector_operations.h]
    together with the array layer and the serializer exercised by
    [lib/cpp-test/array/serializer_gtest.cpp].

    - Raw buffers ([const T *x], [T *y]) live in one shared store, a finite
      map from addresses to elements; a pointer is an address and [x[i]] is
      the cell at [x + i].  Reading or writing a cell that is not allocated
      is undefined behaviour in C++ and is the failure of the store monad.
    - [ulong] counts and loop indices are natural numbers: a loop index is
      always below its bound [n], so the 64-bit wrap-around never happens.
    - Fixed-width integers are machine words with wrap-around arithmetic;
      [float] and [double] are their IEEE-754 bit patterns, with arithmetic
      computed on the decoded values. *)

From Stdlib Require Import ZArith Lia List Strings.Byte.
From Stdlib Require Import Floats.SpecFloat.
From coqutil Require Import Word.Interface Word.Properties Word.Naive.
From coqutil Require Import Word.LittleEndianList.
From stdpp Require Import base gmap list.

(** ** Element types *)

(** What the templates ask of an element type [T]: conversion from an integer
    literal ([T{0}], [T(1.0)]), [+] and [*]. *)
Class Scalar (T : Type) := {
  of_Z : Z -> T;
  add : T -> T -> T;
  mul : T -> T -> T;
}.

(** [tick::promote_t<T>] (from [promote.h]) is the accumulator type [P] of a
    sum over [T]: its zero [promote_t<T>{0}] and the mixed addition
    [init + *first] of [std::accumulate]. *)
Class Promote (T P : Type) := {
  pzero : P;
  padd : P -> T -> P;
}.

(** ** The store monad *)

Definition ptr := nat.

Section Store.
Context {T : Type}.

Definition M (A : Type) : Type := gmap nat T -> option (A * gmap nat T).

Definition ret {A} (a : A) : M A := fun h => Some (a, h).

Definition bind {A B} (m : M A) (k : A -> M B) : M B :=
  fun h => match m h with
           | Some (a, h') => k a h'
           | None => None
           end.

(** [p[0]] as an rvalue. *)
Definition load (p : ptr) : M T :=
  fun h => match h !! p with
           | Some v => Some (v, h)
           | None => None
           end.

(** [p[0] = v]. *)
Definition store (p : ptr) (v : T) : M unit :=
  fun h => match h !! p with
           | Some _ => Some (tt, <[p := v]> h)
           | None => None
           end.

(** [for (ulong i = i0; i < i0 + k; ++i) acc = body(i, acc);] *)
Fixpoint for_loop {A} (k i : nat) (body : nat -> A -> M A) (acc : A) : M A :=
  match k with
  | O => ret acc
  | S k' => bind (body i acc) (for_loop k' (S i) body)
  end.
End Store.

Arguments M : clear implicits.

Declare Scope store_scope.
Delimit Scope store_scope with store.
Notation "x <- m ;; k" := (bind m (fun x => k))
  (at level 100, m at next level, right associativity) : store_scope.
Local Open Scope store_scope.

(** ** [vector_operations_unoptimized<T>] *)

(** The capability set shared by both variants. *)
Record vector_ops (T P : Type) := {
  vo_dot : nat -> ptr -> ptr -> M T T;
  vo_sum : nat -> ptr -> M T P;
  vo_scale : nat -> T -> ptr -> M T unit;
  vo_set : nat -> T -> ptr -> M T unit;
  vo_mult_incr : nat -> T -> ptr -> ptr -> M T unit;
}.
Arguments vo_dot {T P}.
Arguments vo_sum {T P}.
Arguments vo_scale {T P}.
Arguments vo_set {T P}.
Arguments vo_mult_incr {T P}.

Section Unoptimized.
Context {T P : Type} {scalar : Scalar T} {promote : Promote T P}.

Definition dot (n : nat) (x y : ptr) : M T T :=
  for_loop n 0
    (fun i result =>
       xi <- load (x + i) ;; yi <- load (y + i) ;;
       ret (add result (mul xi yi)))
    (of_Z 0).

(** [std::accumulate(first, last, init)]:
    [for (; first != last; ++first) init = init + *first; return init;]
    The fuel is the distance [last - first]. *)
Fixpoint accumulate_loop (fuel : nat) (first last : ptr) (init : P) : M T P :=
  if decide (first = last) then ret init
  else match fuel with
       | O => fun _ => None
       | S fuel' =>
           v <- load first ;; accumulate_loop fuel' (S first) last (padd init v)
       end.

Definition accumulate (first last : ptr) (init : P) : M T P :=
  accumulate_loop (last - first) first last init.

Definition sum (n : nat) (x : ptr) : M T P :=
  accumulate x (x + n) pzero.

Definition scale (n : nat) (alpha : T) (x : ptr) : M T unit :=
  for_loop n 0
    (fun i _ => xi <- load (x + i) ;; store (x + i) (mul xi alpha)) tt.

Definition set (n : nat) (alpha : T) (x : ptr) : M T unit :=
  for_loop n 0 (fun i _ => store (x + i) alpha) tt.

Definition mult_incr (n : nat) (alpha : T) (x y : ptr) : M T unit :=
  for_loop n 0
    (fun i _ =>
       xi <- load (x + i) ;; yi <- load (y + i) ;;
       store (y + i) (add yi (mul alpha xi)))
    tt.

Definition vector_operations_unoptimized : vector_ops T P :=
  {| vo_dot := dot; vo_sum := sum; vo_scale := scale;
     vo_set := set; vo_mult_incr := mult_incr |}.
End Unoptimized.

(** ** Concrete element types *)

(** Fixed-width integers: [+] and [*] wrap around modulo [2 ^ width]. *)
Section IntegerTypes.
Context {width : Z} {word : word.word width}.

#[export] Instance integer_scalar : Scalar word :=
  {| of_Z := word.of_Z; add := word.add; mul := word.mul |}.

(** Accumulating into a second integer type: each element is converted to
    the accumulator type ([unsigned] or [signed] source) and added there. *)
Context {pwidth : Z} {pword : word.word pwidth}.

Definition unsigned_promote : Promote word pword :=
  {| pzero := word.of_Z 0;
     padd := fun init v => word.add init (word.of_Z (word.unsigned v)) |}.

Definition signed_promote : Promote word pword :=
  {| pzero := word.of_Z 0;
     padd := fun init v => word.add init (word.of_Z (word.signed v)) |}.
End IntegerTypes.

(** An element type that is its own accumulator type. *)
Definition self_promote {T : Type} {scalar : Scalar T} : Promote T T :=
  {| pzero := of_Z 0; padd := add |}.

(** IEEE-754 binary interchange formats: [mw] trailing-significand bits and
    [ew] exponent bits ([float]: 23 and 8; [double]: 52 and 11).  A value is
    its bit pattern; arithmetic decodes, computes with the reference
    operations of [SpecFloat] (round to nearest, ties to even) and encodes. *)
Section IEEE754.
Context (mw ew : Z).
Local Open Scope Z_scope.

Definition ieee_prec : Z := mw + 1.
Definition ieee_emax : Z := 2 ^ (ew - 1).
Definition ieee_emin : Z := 3 - ieee_emax - ieee_prec.

Definition ieee_decode (z : Z) : spec_float :=
  let s := Z.testbit z (mw + ew) in
  let e := (z / 2 ^ mw) mod 2 ^ ew in
  let m := z mod 2 ^ mw in
  if e =? 2 ^ ew - 1 then
    if m =? 0 then S754_infinity s else S754_nan
  else if e =? 0 then
    match m with
    | Zpos p => S754_finite s p ieee_emin
    | _ => S754_zero s
    end
  else
    match m + 2 ^ mw with
    | Zpos p => S754_finite s p (e + ieee_emin - 1)
    | _ => S754_nan
    end.

Definition ieee_sign (s : bool) : Z := if s then 2 ^ (mw + ew) else 0.

Definition ieee_encode (f : spec_float) : Z :=
  match f with
  | S754_zero s => ieee_sign s
  | S754_infinity s => ieee_sign s + (2 ^ ew - 1) * 2 ^ mw
  | S754_nan => (2 ^ ew - 1) * 2 ^ mw + 2 ^ (mw - 1)
  | S754_finite s m e =>
      ieee_sign s +
      (if Zpos m <? 2 ^ mw then Zpos m
       else (e - ieee_emin + 1) * 2 ^ mw + (Zpos m - 2 ^ mw))
  end.

Definition ieee_of_Z (z : Z) : Z :=
  ieee_encode (binary_normalize ieee_prec ieee_emax z 0 false).

Definition ieee_add (a b : Z) : Z :=
  ieee_encode (SFadd ieee_prec ieee_emax (ieee_decode a) (ieee_decode b)).

Definition ieee_mul (a b : Z) : Z :=
  ieee_encode (SFmul ieee_prec ieee_emax (ieee_decode a) (ieee_decode b)).

Definition ieee_scalar {width : Z} {word : word.word width} : Scalar word :=
  {| of_Z := fun z => word.of_Z (ieee_of_Z z);
     add := fun a b => word.of_Z (ieee_add (word.unsigned a) (word.unsigned b));
     mul := fun a b => word.of_Z (ieee_mul (word.unsigned a) (word.unsigned b)) |}.
End IEEE754.

(** The two formats in use: binary32 and binary64. *)
Definition ieee_format (mw ew : Z) : Prop :=
  (mw = 23 /\ ew = 8)%Z \/ (mw = 52 /\ ew = 11)%Z.

(** [float] and [double] as 32- and 64-bit patterns. *)
Definition float := Naive.word32.
Definition double := Naive.word64.
Definition float_scalar : Scalar float := ieee_scalar 23 8.
Definition double_scalar : Scalar double := ieee_scalar 52 11.

(** A [double] literal with an integer value, as in [ArrayDouble{10, 20}]. *)
Definition double_of_Z (z : Z) : double := of_Z (Scalar := double_scalar) z.

(** ** [vector_operations_cblas<T>] *)

(** Element types a template can be instantiated at: the two floating types
    that have a specialisation, and the fixed-width integer types. *)
Inductive scalar_type : Type :=
  | float_t
  | double_t
  | integral_t (signed : bool) (bits : N).

(** The C++ type behind each [scalar_type] and its arithmetic. *)
Definition ctype (t : scalar_type) : Type :=
  match t with
  | float_t => float
  | double_t => double
  | integral_t _ bits => Naive.word (Z.of_N bits)
  end.

Definition ctype_scalar (t : scalar_type) : Scalar (ctype t) :=
  match t as t0 return Scalar (ctype t0) with
  | float_t => float_scalar
  | double_t => double_scalar
  | integral_t _ _ => integer_scalar
  end.



(** [ulong n] passed where CBLAS expects [const int N]: the value is reduced
    to a signed 32-bit integer. *)
Definition to_int (n : nat) : Z :=
  (Z.of_nat n + 2 ^ 31) mod 2 ^ 32 - 2 ^ 31.

(** The external backend ([<cblas.h>], [<mkl.h>], Accelerate): the level-1
    routines the specialisations call, with their C argument order
    (N, [alpha], X, incX, Y, incY). *)
Record cblas_backend : Type := {
  cblas_sasum : Z -> ptr -> Z -> M float float;
  cblas_sdot : Z -> ptr -> Z -> ptr -> Z -> M float float;
  cblas_sscal : Z -> float -> ptr -> Z -> M float unit;
  cblas_saxpy : Z -> float -> ptr -> Z -> ptr -> Z -> M float unit;
  catlas_sset : Z -> float -> ptr -> Z -> M float unit;
  cblas_dasum : Z -> ptr -> Z -> M double double;
  cblas_ddot : Z -> ptr -> Z -> ptr -> Z -> M double double;
  cblas_dscal : Z -> double -> ptr -> Z -> M double unit;
  cblas_daxpy : Z -> double -> ptr -> Z -> ptr -> Z -> M double unit;
  catlas_dset : Z -> double -> ptr -> Z -> M double unit;
}.

Section Cblas.
(** The accumulator type [promote_t<T>] of each element type, from
    [promote.h]. *)
Context (promoted : scalar_type -> Type).
Context (promote_ops : forall t, Promote (ctype t) (promoted t)).
Context (backend : cblas_backend).
(** The preprocessor symbol guarding the [set] overrides. *)
Context (TICK_CATLAS_AVAILABLE : bool).

#[local] Existing Instance ctype_scalar.

(** [vector_operations_cblas_base<T>]: [sum] and [set] forward to the
    unoptimized variant. *)
Definition vector_operations_cblas_base_sum (t : scalar_type)
    (n : nat) (x : ptr) : M (ctype t) (promoted t) :=
  vo_sum vector_operations_unoptimized n x.

Definition vector_operations_cblas_base_set (t : scalar_type)
    (n : nat) (alpha : ctype t) (x : ptr) : M (ctype t) unit :=
  vo_set (P := promoted t) vector_operations_unoptimized n alpha x.

(** [vector_operations_cblas<float>::absolute_sum] and its [double] twin;
    the primary template has no such member. *)
Definition absolute_sum_float (n : nat) (x : ptr) : M float float :=
  cblas_sasum backend (to_int n) x 1%Z.

Definition absolute_sum_double (n : nat) (x : ptr) : M double double :=
  cblas_dasum backend (to_int n) x 1%Z.

(** The primary template inherits every member of
    [vector_operations_unoptimized<T>]; the [float] and [double]
    specialisations derive from [vector_operations_cblas_base] and call the
    backend with unit strides. *)
Definition vector_operations_cblas (t : scalar_type)
    : vector_ops (ctype t) (promoted t) :=
  match t as t0 return vector_ops (ctype t0) (promoted t0) with
  | float_t =>
      {| vo_dot := fun n x y => cblas_sdot backend (to_int n) x 1%Z y 1%Z;
         vo_sum := vector_operations_cblas_base_sum float_t;
         vo_scale := fun n alpha x => cblas_sscal backend (to_int n) alpha x 1%Z;
         vo_set :=
           if TICK_CATLAS_AVAILABLE
           then fun n alpha x => catlas_sset backend (to_int n) alpha x 1%Z
           else vector_operations_cblas_base_set float_t;
         vo_mult_incr :=
           fun n alpha x y => cblas_saxpy backend (to_int n) alpha x 1%Z y 1%Z |}
  | double_t =>
      {| vo_dot := fun n x y => cblas_ddot backend (to_int n) x 1%Z y 1%Z;
         vo_sum := vector_operations_cblas_base_sum double_t;
         vo_scale := fun n alpha x => cblas_dscal backend (to_int n) alpha x 1%Z;
         vo_set :=
           if TICK_CATLAS_AVAILABLE
           then fun n alpha x => catlas_dset backend (to_int n) alpha x 1%Z
           else vector_operations_cblas_base_set double_t;
         vo_mult_incr :=
           fun n alpha x y => cblas_daxpy backend (to_int n) alpha x 1%Z y 1%Z |}
  | integral_t s b => vector_operations_unoptimized
  end.

End Cblas.

(** A backend for evaluating the specialisations: every routine runs the
    portable loop on [N] elements and supports unit strides only; the
    absolute sums are not provided. *)
Definition portable_backend : cblas_backend :=
  {| cblas_sasum := fun _ _ _ _ => None;
     cblas_sdot := fun N X _ Y _ => dot (scalar := float_scalar) (Z.to_nat N) X Y;
     cblas_sscal := fun N alpha X _ => scale (scalar := float_scalar) (Z.to_nat N) alpha X;
     cblas_saxpy :=
       fun N alpha X _ Y _ => mult_incr (scalar := float_scalar) (Z.to_nat N) alpha X Y;
     catlas_sset := fun N alpha X _ => set (Z.to_nat N) alpha X;
     cblas_dasum := fun _ _ _ _ => None;
     cblas_ddot := fun N X _ Y _ => dot (scalar := double_scalar) (Z.to_nat N) X Y;
     cblas_dscal := fun N alpha X _ => scale (scalar := double_scalar) (Z.to_nat N) alpha X;
     cblas_daxpy :=
       fun N alpha X _ Y _ => mult_incr (scalar := double_scalar) (Z.to_nat N) alpha X Y;
     catlas_dset := fun N alpha X _ => set (Z.to_nat N) alpha X |}.

(** ** The array layer *)

(** Modelled from the spec: the error taxonomy of section 7 (missing: the
    error classes of [tick/base]). *)
Inductive condition : Type :=
  | DimensionMismatch
  | CorruptData
  | TypeMismatch.

Inductive result (A : Type) : Type :=
  | Ok (a : A)
  | Fail (c : condition).
Arguments Ok {A}.
Arguments Fail {A}.

(** Modelled from the spec: the dense array of section 3, a 1-D
    [{ size, data }] or a row-major 2-D [{ n_rows, n_cols, data }]
    (missing: [tick/array/array.h] and [array2d.h]). *)
Inductive DenseArray (T : Type) : Type :=
  | Array (size : N) (data : list T)
  | Array2d (n_rows n_cols : N) (data : list T).
Arguments Array {T}.
Arguments Array2d {T}.

(** Modelled from the spec: the CSR array of section 3 (missing:
    [tick/array/sparsearray2d.h]). *)
Record SparseArray2d (T : Type) : Type := {
  n_rows : N;
  n_cols : N;
  row_indices : list N;
  indices : list N;
  data : list T;
}.
Arguments n_rows {T}.
Arguments n_cols {T}.
Arguments row_indices {T}.
Arguments indices {T}.
Arguments data {T}.

(** Modelled from the spec: the read-only sparse row view of section 4.3,
    the column-index and value sub-sequences of one row. *)
Record SparseRowView (T : Type) : Type := {
  view_indices : list N;
  view_data : list T;
}.
Arguments view_indices {T}.
Arguments view_data {T}.

Section ArrayLayer.
Context {T : Type} {scalar : Scalar T}.

Definition dims (a : DenseArray T) : list N :=
  match a with
  | Array size _ => [size]
  | Array2d n_rows n_cols _ => [n_rows; n_cols]
  end.

Definition dense_data (a : DenseArray T) : list T :=
  match a with
  | Array _ data => data
  | Array2d _ _ data => data
  end.

(** Number of elements announced by the shape. *)
Definition dense_size (a : DenseArray T) : N :=
  foldr N.mul 1%N (dims a).

(** Modelled from the spec: [dot] of section 4.2.  The dimensions of both
    operands must match, otherwise the call fails with
    [DimensionMismatch]; on a match it delegates to the vector operations
    on the two buffers, here laid out one after the other in a store.
    [None] is the undefined behaviour of reading past a buffer. *)
Definition dense_dot (a b : DenseArray T) : option (result T) :=
  if decide (dims a = dims b) then
    match dot (N.to_nat (dense_size a)) 0 (length (dense_data a))
              (map_seq 0 (dense_data a ++ dense_data b)) with
    | Some (v, _) => Some (Ok v)
    | None => None
    end
  else Some (Fail DimensionMismatch).

(** Modelled from the spec: [view_row(sparse, r)] of section 4.3, the
    column-index/value sub-sequence of row [r], of length
    [row_indices[r+1] - row_indices[r]]. *)
Definition view_row (a : SparseArray2d T) (r : N) : option (SparseRowView T) :=
  match row_indices a !! N.to_nat r, row_indices a !! N.to_nat (r + 1) with
  | Some lo, Some hi =>
      let len := N.to_nat (hi - lo) in
      Some {| view_indices := take len (drop (N.to_nat lo) (indices a));
              view_data := take len (drop (N.to_nat lo) (data a)) |}
  | _, _ => None
  end.

(** Modelled from the spec: [dot(dense_vector, sparse_row_view)] of
    section 4.3 iterates the stored (column, value) pairs and accumulates
    [value * dense_vector[column]]; columns that are not stored contribute
    nothing. *)
Fixpoint sparse_dot_loop (dense : list T) (cols : list N) (vals : list T)
    (result : T) : option T :=
  match cols, vals with
  | c :: cols', v :: vals' =>
      match dense !! N.to_nat c with
      | Some d => sparse_dot_loop dense cols' vals' (add result (mul v d))
      | None => None
      end
  | _, _ => Some result
  end.

Definition sparse_dot (dense : DenseArray T) (row : SparseRowView T) : option T :=
  sparse_dot_loop (dense_data dense) (view_indices row) (view_data row) (of_Z 0).
End ArrayLayer.

(** ** The serialization codec *)

(** Modelled from the spec: the exact, fixed-size binary encoding of one
    element of section 4.4 (missing: [tick/array/serializer.h]). *)
Class Binary (T : Type) := {
  elem_size : nat;
  to_bytes : T -> list byte;
  from_bytes : list byte -> T;
}.

(** A machine word is written as its little-endian bytes; [float] and
    [double], being bit patterns, are written the same way. *)
Definition word_binary {width : Z} {word : word.word width} : Binary word :=
  {| elem_size := Z.to_nat (width / 8);
     to_bytes := fun w => le_split (Z.to_nat (width / 8)) (word.unsigned w);
     from_bytes := fun bs => word.of_Z (le_combine bs) |}.

Definition ctype_binary (t : scalar_type) : Binary (ctype t) :=
  match t as t0 return Binary (ctype t0) with
  | float_t => word_binary
  | double_t => word_binary
  | integral_t _ _ => word_binary
  end.

(** The encoding of an element is exact: it has the announced size and
    reading it back gives the element, bit for bit. *)
Class BinaryExact (T : Type) {binary : Binary T} : Prop := {
  to_bytes_length : forall v : T, length (to_bytes v) = elem_size;
  from_to_bytes : forall v : T, from_bytes (to_bytes v) = v;
}.

Inductive AnyArray (T : Type) : Type :=
  | Dense (a : DenseArray T)
  | Sparse (a : SparseArray2d T).
Arguments Dense {T}.
Arguments Sparse {T}.

(** The concrete type a caller asks [array_from_file] for. *)
Inductive array_class : Type :=
  | ArrayClass
  | Array2dClass
  | SparseArray2dClass.

Definition parser (A : Type) : Type := list byte -> result (A * list byte).

Definition pret {A} (a : A) : parser A := fun bs => Ok (a, bs).

Definition pbind {A B} (p : parser A) (k : A -> parser B) : parser B :=
  fun bs => match p bs with
            | Ok (a, rest) => k a rest
            | Fail c => Fail c
            end.

Definition pfail {A} (c : condition) : parser A := fun _ => Fail c.

Declare Scope parser_scope.
Delimit Scope parser_scope with parser.
Notation "x <- m ;; k" := (pbind m (fun x => k))
  (at level 100, m at next level, right associativity) : parser_scope.

Section Codec.
Context {T : Type} {binary : Binary T}.
(** [sizeof(INDICE_TYPE)], from [tick/base/defs.h]. *)
Context (index_size : nat).

Definition put_u64 (n : N) : list byte := le_split 8 (Z.of_N n).
Definition put_index (n : N) : list byte := le_split index_size (Z.of_N n).

(** Modelled from the spec: dense layout
    [[rank][dim_0]...[dim_{rank-1}][element_count][elements...]]. *)
Definition serialize_dense (a : DenseArray T) : list byte :=
  put_u64 (N.of_nat (length (dims a)))
  ++ concat (put_u64 <$> dims a)
  ++ put_u64 (dense_size a)
  ++ concat (to_bytes <$> dense_data a).

(** Modelled from the spec: sparse CSR layout
    [[n_rows][n_cols][nnz][row_indices...][col_indices...][values...]]. *)
Definition serialize_sparse (a : SparseArray2d T) : list byte :=
  put_u64 (n_rows a) ++ put_u64 (n_cols a)
  ++ put_u64 (N.of_nat (length (data a)))
  ++ concat (put_index <$> row_indices a)
  ++ concat (put_index <$> indices a)
  ++ concat (to_bytes <$> data a).

Definition serialize (a : AnyArray T) : list byte :=
  match a with
  | Dense d => serialize_dense d
  | Sparse s => serialize_sparse s
  end.

(** Reading fewer bytes than declared is [CorruptData]. *)
Definition get_bytes (k : nat) : parser (list byte) :=
  fun bs => if decide (k <= length bs) then Ok (take k bs, drop k bs)
            else Fail CorruptData.

Definition get_u64 : parser N :=
  (bs <- get_bytes 8 ;; pret (Z.to_N (le_combine bs)))%parser.

Definition get_index : parser N :=
  (bs <- get_bytes index_size ;; pret (Z.to_N (le_combine bs)))%parser.

Definition get_elem : parser T :=
  (bs <- get_bytes elem_size ;; pret (from_bytes bs))%parser.

Fixpoint get_many {A} (k : nat) (p : parser A) : parser (list A) :=
  match k with
  | O => pret []
  | S k' => (a <- p ;; l <- get_many k' p ;; pret (a :: l))%parser
  end.

(** Bytes left over after the declared content are [CorruptData] too. *)
Definition get_end : parser unit :=
  fun bs => match bs with
            | [] => Ok (tt, [])
            | _ :: _ => Fail CorruptData
            end.

(** Modelled from the spec: decoding a dense array of the requested rank.
    A rank other than the requested one is a [TypeMismatch]; a declared
    shape that disagrees with the element count or with the length of the
    data is [CorruptData]. *)
Definition decode_dense (rank : N) : parser (DenseArray T) :=
  (r <- get_u64 ;;
   if negb (r =? rank)%N then pfail TypeMismatch else
   ds <- get_many (N.to_nat r) get_u64 ;;
   count <- get_u64 ;;
   if negb (count =? foldr N.mul 1 ds)%N then pfail CorruptData else
   elems <- get_many (N.to_nat count) get_elem ;;
   _ <- get_end ;;
   match ds with
   | [size] => pret (Array size elems)
   | [n_rows; n_cols] => pret (Array2d n_rows n_cols elems)
   | _ => pfail TypeMismatch
   end)%parser.

(** Modelled from the spec: decoding a CSR array; [n_rows + 1] row
    pointers, then [nnz] column indices and [nnz] values. *)
Definition decode_sparse : parser (SparseArray2d T) :=
  (nr <- get_u64 ;;
   nc <- get_u64 ;;
   nnz <- get_u64 ;;
   rows <- get_many (S (N.to_nat nr)) get_index ;;
   cols <- get_many (N.to_nat nnz) get_index ;;
   vals <- get_many (N.to_nat nnz) get_elem ;;
   _ <- get_end ;;
   pret {| n_rows := nr; n_cols := nc; row_indices := rows;
           indices := cols; data := vals |})%parser.

(** Modelled from the spec: [deserialize(bytes)] into the concrete type
    the caller requests; the result is a new owning array or a
    condition. *)
Definition deserialize (cls : array_class) (bs : list byte) : result (AnyArray T) :=
  match cls with
  | ArrayClass =>
      match decode_dense 1 bs with
      | Ok (a, _) => Ok (Dense a)
      | Fail c => Fail c
      end
  | Array2dClass =>
      match decode_dense 2 bs with
      | Ok (a, _) => Ok (Dense a)
      | Fail c => Fail c
      end
  | SparseArray2dClass =>
      match decode_sparse bs with
      | Ok (a, _) => Ok (Sparse a)
      | Fail c => Fail c
      end
  end.

Definition class_of (a : AnyArray T) : array_class :=
  match a with
  | Dense (Array _ _) => ArrayClass
  | Dense (Array2d _ _ _) => Array2dClass
  | Sparse _ => SparseArray2dClass
  end.

(** The invariants of section 3 that tie a shape to the lengths of the
    buffers, with every header field and index fitting its C++ type. *)
Definition dense_wf (a : DenseArray T) : Prop :=
  Forall (fun d => (d < 2 ^ 64)%N) (dims a)
  /\ (dense_size a < 2 ^ 64)%N
  /\ N.of_nat (length (dense_data a)) = dense_size a.

Definition index_ok (i : N) : Prop := (Z.of_N i < 2 ^ (Z.of_nat index_size * 8))%Z.

Definition sparse_wf (a : SparseArray2d T) : Prop :=
  (n_rows a < 2 ^ 64)%N /\ (n_cols a < 2 ^ 64)%N
  /\ (N.of_nat (length (data a)) < 2 ^ 64)%N
  /\ length (row_indices a) = S (N.to_nat (n_rows a))
  /\ length (indices a) = length (data a)
  /\ Forall index_ok (row_indices a)
  /\ Forall index_ok (indices a).

Definition array_wf (a : AnyArray T) : Prop :=
  match a with
  | Dense d => dense_wf d
  | Sparse s => sparse_wf s
  end.
End Codec.

(** ** Vocabulary of the statements *)

(** The store [h] holds the elements [xs] from address [p] on: a buffer of
    length [length xs] starting at [p]. *)
Definition buffer {T : Type} (h : gmap nat T) (p : ptr) (xs : list T) : Prop :=
  forall i v, xs !! i = Some v -> h !! (p + i) = Some v.

(** Address [a] lies in the [n] cells starting at [p]. *)
Definition in_range (p : ptr) (n : nat) (a : nat) : Prop := p <= a < p + n.

(** The stores [h] and [h'] agree on every address outside the [n] cells
    starting at [p]. *)
Definition unchanged_outside {T : Type} (p : ptr) (n : nat) (h h' : gmap nat T) : Prop :=
  forall a, ~ in_range p n a -> h' !! a = h !! a.

(** The mathematical sum of the elements, each read through [val]. *)
Definition exact_sum {T : Type} (val : T -> Z) (xs : list T) : Z :=
  foldr (fun v s => (val v + s)%Z) 0%Z xs.

(** [dense.dot(view_row(sparse, r))], as the serializer test calls it. *)
Definition row_dot {T : Type} {scalar : Scalar T}
    (dense : DenseArray T) (sparse : SparseArray2d T) (r : N) : option T :=
  match view_row sparse r with
  | Some row => sparse_dot dense row
  | None => None
  end.

(** [TEST(Serialize, SparseArray2d)]: the CSR matrix and the dense vector of
    [serializer_gtest.cpp]. *)
Module SerializeSparseArray2d.
Definition sparse_array : SparseArray2d double :=
  {| n_rows := 4; n_cols := 6;
     row_indices := [0; 2; 4; 7; 8]%N;
     indices := [0; 1; 1; 3; 2; 3; 4; 5]%N;
     data := double_of_Z <$> [10; 20; 30; 40; 50; 60; 70; 80]%Z |}.

Definition dot_array : DenseArray double :=
  Array 6 (double_of_Z <$> [1; 2; 3; 4; 5; 6]%Z).

Definition row_dots (a : SparseArray2d double) : list (option double) :=
  row_dot (scalar := double_scalar) dot_array a <$> [0; 1; 2; 3]%N.
End SerializeSparseArray2d.

(** The conditions a parser of the codec may fail with. *)
Definition codec_failure {A : Type} (p : parser A) : Prop :=
  forall bs c, p bs = Fail c -> c = CorruptData \/ c = TypeMismatch.

(** The element-wise reading of [dot]: products accumulated left to right
    from [T{0}]. *)
Definition dot_of_lists {T : Type} {scalar : Scalar T} (xs ys : list T) : T :=
  foldl (fun result p => add result (mul p.1 p.2)) (of_Z 0) (zip xs ys).

(** The [n] cells starting at [p] are allocated in [h]. *)
Definition allocated {T : Type} (h : gmap nat T) (p : ptr) (n : nat) : Prop :=
  forall i, i < n -> is_Some (h !! (p + i)).

(** The mathematical sum of the element-wise products, each element read
    through [val]. *)
Definition exact_dot {T : Type} (val : T -> Z) (xs ys : list T) : Z :=
  foldr (fun p s => (val p.1 * val p.2 + s)%Z) 0%Z (zip xs ys).

(** * Properties *)

(** ** Rules for the store monad *)

Section StoreRules.
Context {T : Type}.
Implicit Types h : gmap nat T.

Lemma load_Some (p : ptr) h v : h !! p = Some v -> load p h = Some (v, h).
Proof. intros E. unfold load. by rewrite E. Qed.

Lemma load_inv (p : ptr) h v h' :
  load p h = Some (v, h') -> h' = h /\ h !! p = Some v.
Proof.
  unfold load. destruct (h !! p) as [w|] eqn:E; [|done].
  intros [= <- <-]. done.
Qed.

Lemma store_Some (p : ptr) (v w : T) h :
  h !! p = Some w -> store p v h = Some (tt, <[p := v]> h).
Proof. intros E. unfold store. by rewrite E. Qed.

Lemma store_inv (p : ptr) (v : T) h u h' :
  store p v h = Some (u, h') -> h' = <[p := v]> h /\ is_Some (h !! p).
Proof.
  unfold store. destruct (h !! p) as [w|] eqn:E; [|done].
  intros [= <- <-]. eauto.
Qed.

Lemma bind_inv {A B} (m : M T A) (k : A -> M T B) h b h' :
  bind m k h = Some (b, h') ->
  exists a h1, m h = Some (a, h1) /\ k a h1 = Some (b, h').
Proof.
  unfold bind. destruct (m h) as [[a h1]|]; [|done]. eauto.
Qed.

(** Total correctness of a counted loop: an invariant that every iteration
    re-establishes, without failing, holds when the loop returns. *)
Lemma for_loop_total {A} (I : nat -> A -> gmap nat T -> Prop)
    (body : nat -> A -> M T A) (k i : nat) (acc : A) h :
  I i acc h ->
  (forall j a h0, i <= j < i + k -> I j a h0 ->
     exists a' h1, body j a h0 = Some (a', h1) /\ I (S j) a' h1) ->
  exists a' h', for_loop k i body acc h = Some (a', h') /\ I (i + k) a' h'.
Proof.
  revert i acc h. induction k as [|k IH]; intros i acc h HI Hbody.
  - exists acc, h. rewrite Nat.add_0_r. done.
  - destruct (Hbody i acc h) as (a1 & h1 & E1 & HI1); [lia | done |].
    destruct (IH (S i) a1 h1) as (a' & h' & E & HI'); [done | |].
    + intros j a h0 Hj. apply Hbody. lia.
    + exists a', h'. split.
      * simpl. unfold bind. by rewrite E1.
      * by replace (i + S k) with (S i + k) by lia.
Qed.

(** Partial correctness: whatever the loop returns satisfies an invariant
    preserved by every iteration that returns. *)
Lemma for_loop_partial {A} (I : nat -> A -> gmap nat T -> Prop)
    (body : nat -> A -> M T A) (k i : nat) (acc : A) h a' h' :
  for_loop k i body acc h = Some (a', h') ->
  I i acc h ->
  (forall j a h0 a1 h1, i <= j < i + k -> I j a h0 ->
     body j a h0 = Some (a1, h1) -> I (S j) a1 h1) ->
  I (i + k) a' h'.
Proof.
  revert i acc h. induction k as [|k IH]; intros i acc h E HI Hbody.
  - simpl in E. injection E as <- <-. by rewrite Nat.add_0_r.
  - simpl in E. apply bind_inv in E as (a1 & h1 & E1 & E).
    replace (i + S k) with (S i + k) by lia.
    apply (IH (S i) a1 h1); [done | |].
    + apply (Hbody i acc h); [lia | done | done].
    + intros j a h0 a2 h2 Hj. apply Hbody. lia.
Qed.

Lemma buffer_lookup h (p : ptr) (xs : list T) (i : nat) :
  buffer h p xs -> i < length xs -> exists v, xs !! i = Some v /\ h !! (p + i) = Some v.
Proof.
  intros Hb Hi. destruct (lookup_lt_is_Some_2 xs i Hi) as [v Hv].
  exists v. split; [done | by apply Hb].
Qed.

End StoreRules.

(** ** The unoptimized vector operations *)

Section UnoptimizedFacts.
Context {T P : Type} {scalar : Scalar T} {promote : Promote T P}.
Implicit Types h : gmap nat T.

(** [dot] on two readable buffers returns the accumulated products and leaves
    the store as it was. *)
Lemma dot_spec (n : nat) (x y : ptr) (xs ys : list T) h :
  buffer h x xs -> buffer h y ys -> n <= length xs -> n <= length ys ->
  dot n x y h = Some (dot_of_lists (take n xs) (take n ys), h).
Proof.
  intros Hx Hy Hnx Hny. unfold dot.
  destruct (for_loop_total
    (fun j r h0 => h0 = h /\ r = dot_of_lists (take j xs) (take j ys))
    (fun i result =>
       xi <- load (x + i) ;; yi <- load (y + i) ;;
       ret (add result (mul xi yi)))
    n 0 (of_Z 0) h) as (r & h' & E & -> & ->); [done | | by rewrite E].
  intros j a h0 Hj [-> ->].
  destruct (buffer_lookup h x xs j Hx) as (xj & Exj & Lx); [lia|].
  destruct (buffer_lookup h y ys j Hy) as (yj & Eyj & Ly); [lia|].
  eexists _, h. split.
  - unfold bind. rewrite (load_Some _ _ _ Lx), (load_Some _ _ _ Ly). reflexivity.
  - split; [done|]. unfold dot_of_lists.
    rewrite (take_S_r xs j xj Exj), (take_S_r ys j yj Eyj).
    rewrite zip_with_app by (rewrite !length_take; lia).
    rewrite foldl_app. reflexivity.
Qed.

Lemma accumulate_loop_spec (fuel : nat) (first : ptr) (xs : list T) (init : P) h :
  buffer h first xs -> fuel = length xs ->
  accumulate_loop fuel first (first + length xs) init h
  = Some (foldl padd init xs, h).
Proof.
  revert first xs init. induction fuel as [|fuel IH]; intros first xs init Hb Hf.
  - destruct xs; [|done]. simpl.
    destruct (decide (first = first + 0)); [done | lia].
  - destruct xs as [|v xs]; [done|]. simpl.
    destruct (decide (first = first + S (length xs))); [lia|].
    unfold bind. rewrite (load_Some first h v).
    + replace (first + S (length xs)) with (S first + length xs) by lia.
      apply IH; [|by injection Hf].
      intros i w Hi. replace (S first + i) with (first + S i) by lia.
      by apply Hb.
    + replace first with (first + 0) at 1 by lia. by apply Hb.
Qed.

(** [sum] is the left-to-right accumulation of [x[0..n)] from the promoted
    zero. *)
Lemma sum_spec (n : nat) (x : ptr) (xs : list T) h :
  buffer h x xs -> n <= length xs ->
  sum n x h = Some (foldl padd pzero (take n xs), h).
Proof.
  intros Hb Hn. unfold sum, accumulate.
  replace (x + n - x) with n by lia.
  assert (Hlen : length (take n xs) = n) by (rewrite length_take; lia).
  rewrite <- Hlen at 2.
  apply accumulate_loop_spec; [|done].
  intros i v Hv. apply Hb.
  rewrite lookup_take_Some in Hv. tauto.
Qed.

Lemma accumulate_loop_frame (fuel : nat) (first last : ptr) (init r : P) h h' :
  accumulate_loop fuel first last init h = Some (r, h') -> h' = h.
Proof.
  revert first init. induction fuel as [|fuel IH]; intros first init; simpl.
  - destruct (decide (first = last)); [|done]. by intros [= _ <-].
  - destruct (decide (first = last)); [by intros [= _ <-]|].
    intros E. apply bind_inv in E as (v & h1 & E1 & E).
    apply load_inv in E1 as [-> _]. by apply IH in E.
Qed.

Lemma unchanged_outside_refl (p : ptr) (n : nat) h : unchanged_outside p n h h.
Proof. by intros a _. Qed.

Lemma unchanged_outside_insert (p : ptr) (n i : nat) (v : T) h h' :
  i < n -> unchanged_outside p n h h' -> unchanged_outside p n h (<[p + i := v]> h').
Proof.
  intros Hi Hu a Ha. rewrite lookup_insert_ne; [by apply Hu|].
  unfold in_range in Ha. lia.
Qed.

Lemma scale_spec (n : nat) (alpha : T) (x : ptr) (xs : list T) h :
  buffer h x xs -> n <= length xs ->
  exists h', scale n alpha x h = Some (tt, h')
    /\ unchanged_outside x n h h'
    /\ forall i xi, i < n -> xs !! i = Some xi -> h' !! (x + i) = Some (mul xi alpha).
Proof.
  intros Hx Hn. unfold scale.
  destruct (for_loop_total
    (fun j (_ : unit) h0 =>
       unchanged_outside x j h h0
       /\ forall i xi, i < j -> xs !! i = Some xi -> h0 !! (x + i) = Some (mul xi alpha))
    (fun i _ => xi <- load (x + i) ;; store (x + i) (mul xi alpha))
    n 0 tt h) as ([] & h' & E & Hout & Hin).
  - split; [apply unchanged_outside_refl | intros; lia].
  - intros j [] h0 Hj [Hout Hin].
    destruct (buffer_lookup h x xs j Hx) as (xj & Exj & Lx); [lia|].
    assert (L0 : h0 !! (x + j) = Some xj).
    { rewrite Hout; [done|]. unfold in_range. lia. }
    exists tt, (<[x + j := mul xj alpha]> h0). split.
    + unfold bind. rewrite (load_Some _ _ _ L0). by apply store_Some with xj.
    + split.
      * intros a Ha. unfold in_range in Ha.
        rewrite lookup_insert_ne by lia. apply Hout. unfold in_range. lia.
      * intros i xi Hi Exi. destruct (decide (i = j)) as [-> | Hne].
        -- rewrite lookup_insert_eq. congruence.
        -- rewrite lookup_insert_ne by lia. apply Hin; [lia | done].
  - exists h'. split; [done|]. split; [|done].
    intros a Ha. apply Hout. done.
Qed.

Lemma set_spec (n : nat) (alpha : T) (x : ptr) (xs : list T) h :
  buffer h x xs -> n <= length xs ->
  exists h', set n alpha x h = Some (tt, h')
    /\ unchanged_outside x n h h'
    /\ buffer h' x (replicate n alpha).
Proof.
  intros Hx Hn. unfold set.
  destruct (for_loop_total
    (fun j (_ : unit) h0 =>
       unchanged_outside x j h h0 /\ buffer h0 x (replicate j alpha))
    (fun i _ => store (x + i) alpha)
    n 0 tt h) as ([] & h' & E & Hout & Hin).
  - split; [apply unchanged_outside_refl | by intros i v].
  - intros j [] h0 Hj [Hout Hin].
    destruct (buffer_lookup h x xs j Hx) as (xj & Exj & Lx); [lia|].
    assert (L0 : h0 !! (x + j) = Some xj).
    { rewrite Hout; [done|]. unfold in_range. lia. }
    exists tt, (<[x + j := alpha]> h0). split; [by apply store_Some with xj|].
    split.
    + intros a Ha. unfold in_range in Ha.
      rewrite lookup_insert_ne by lia. apply Hout. unfold in_range. lia.
    + intros i v Hv. apply lookup_replicate in Hv as [-> Hi].
      destruct (decide (i = j)) as [-> | Hne].
      * by rewrite lookup_insert_eq.
      * rewrite lookup_insert_ne by lia. apply Hin.
        apply lookup_replicate. split; [done | lia].
  - exists h'. done.
Qed.



End UnoptimizedFacts.

(** Frame properties of the loops. *)
Section UnoptimizedFrame.
Context {T P : Type} {scalar : Scalar T} {promote : Promote T P}.
Implicit Types h : gmap nat T.

Lemma dot_frame (n : nat) (x y : ptr) (r : T) h h' :
  dot n x y h = Some (r, h') -> h' = h.
Proof.
  intros E. unfold dot in E.
  apply (for_loop_partial (fun _ _ h0 => h0 = h)) in E; [done | done |].
  intros j a h0 a1 h1 _ -> E1.
  apply bind_inv in E1 as (xi & h2 & L1 & E1). apply load_inv in L1 as [-> _].
  apply bind_inv in E1 as (yi & h3 & L2 & E1). apply load_inv in L2 as [-> _].
  by injection E1.
Qed.

Lemma sum_frame (n : nat) (x : ptr) (r : P) h h' :
  sum n x h = Some (r, h') -> h' = h.
Proof. apply accumulate_loop_frame. Qed.

Lemma scale_frame (n : nat) (alpha : T) (x : ptr) (u : unit) h h' :
  scale n alpha x h = Some (u, h') -> unchanged_outside x n h h'.
Proof.
  intros E. unfold scale in E.
  apply (for_loop_partial (fun _ _ h0 => unchanged_outside x n h h0)) in E;
    [done | apply unchanged_outside_refl |].
  intros j a h0 a1 h1 Hj Hu E1.
  apply bind_inv in E1 as (xi & h2 & L1 & E1). apply load_inv in L1 as [-> _].
  apply store_inv in E1 as [-> _].
  apply unchanged_outside_insert; [lia | done].
Qed.

Lemma set_frame (n : nat) (alpha : T) (x : ptr) (u : unit) h h' :
  set n alpha x h = Some (u, h') -> unchanged_outside x n h h'.
Proof.
  intros E. unfold set in E.
  apply (for_loop_partial (fun _ _ h0 => unchanged_outside x n h h0)) in E;
    [done | apply unchanged_outside_refl |].
  intros j a h0 a1 h1 Hj Hu E1.
  apply store_inv in E1 as [-> _].
  apply unchanged_outside_insert; [lia | done].
Qed.

Lemma mult_incr_frame (n : nat) (alpha : T) (x y : ptr) (u : unit) h h' :
  mult_incr n alpha x y h = Some (u, h') -> unchanged_outside y n h h'.
Proof.
  intros E. unfold mult_incr in E.
  apply (for_loop_partial (fun _ _ h0 => unchanged_outside y n h h0)) in E;
    [done | apply unchanged_outside_refl |].
  intros j a h0 a1 h1 Hj Hu E1.
  apply bind_inv in E1 as (xi & h2 & L1 & E1). apply load_inv in L1 as [-> _].
  apply bind_inv in E1 as (yi & h3 & L2 & E1). apply load_inv in L2 as [-> _].
  apply store_inv in E1 as [-> _].
  apply unchanged_outside_insert; [lia | done].
Qed.

(** C10, as amended: [dot] and [sum] return the store they were given;
    [scale(n, alpha, x)] and [set(n, alpha, x)] change no cell outside
    [x[0..n)]; [mult_incr(n, alpha, x, y)] changes no cell outside
    [y[0..n)], hence no element of [x] when the two buffers do not
    overlap. *)
Theorem unoptimized_frame (n : nat) (alpha : T) (x y : ptr) h :
  (forall r h', dot n x y h = Some (r, h') -> h' = h)
  /\ (forall r h', sum n x h = Some (r, h') -> h' = h)
  /\ (forall u h', scale n alpha x h = Some (u, h') -> unchanged_outside x n h h')
  /\ (forall u h', set n alpha x h = Some (u, h') -> unchanged_outside x n h h')
  /\ (forall u h', mult_incr n alpha x y h = Some (u, h') ->
        unchanged_outside y n h h'
        /\ (x + n <= y \/ y + n <= x ->
            forall i, i < n -> h' !! (x + i) = h !! (x + i))).
Proof.
  split; [intros r h'; apply dot_frame|].
  split; [intros r h'; apply sum_frame|].
  split; [intros u h'; apply scale_frame|].
  split; [intros u h'; apply set_frame|].
  intros u h' E. apply mult_incr_frame in E. split; [done|].
  intros Hdisj i Hi. apply E. unfold in_range. lia.
Qed.

End UnoptimizedFrame.

(** ** Sums over integer element types *)

Section IntegerSums.
Context {width : Z} {word : word.word width} {word_ok : word.ok word}.
Context {pwidth : Z} {pword : word.word pwidth} {pword_ok : word.ok pword}.
Local Open Scope Z_scope.

Lemma unsigned_accumulate (init : pword) (xs : list word) :
  word.unsigned (foldl (padd (Promote := unsigned_promote)) init xs)
  = (word.unsigned init + exact_sum word.unsigned xs) mod 2 ^ pwidth.
Proof.
  revert init. induction xs as [|v xs IH]; intros init; simpl.
  - rewrite Z.add_0_r. symmetry. apply Z.mod_small, word.unsigned_range.
  - rewrite IH. rewrite word.unsigned_add, word.unsigned_of_Z.
    unfold word.wrap. rewrite Zplus_mod_idemp_r, Zplus_mod_idemp_l.
    f_equal. lia.
Qed.

Lemma signed_accumulate (init : pword) (xs : list word) :
  word.unsigned (foldl (padd (Promote := signed_promote)) init xs)
  = (word.unsigned init + exact_sum word.signed xs) mod 2 ^ pwidth.
Proof.
  revert init. induction xs as [|v xs IH]; intros init; simpl.
  - rewrite Z.add_0_r. symmetry. apply Z.mod_small, word.unsigned_range.
  - rewrite IH. rewrite word.unsigned_add, word.unsigned_of_Z.
    unfold word.wrap. rewrite Zplus_mod_idemp_r, Zplus_mod_idemp_l.
    f_equal. lia.
Qed.

Lemma unsigned_sum_exact (n : nat) (x : ptr) (xs : list word) (h : gmap nat word) :
  buffer h x xs -> (n <= length xs)%nat ->
  0 <= exact_sum word.unsigned (take n xs) < 2 ^ pwidth ->
  exists r : pword, sum (promote := unsigned_promote) n x h = Some (r, h)
    /\ word.unsigned r = exact_sum word.unsigned (take n xs).
Proof.
  intros Hb Hn Hr. eexists. split; [by apply sum_spec|].
  rewrite unsigned_accumulate. simpl. rewrite word.unsigned_of_Z_0.
  by apply Z.mod_small.
Qed.

Lemma signed_sum_exact (n : nat) (x : ptr) (xs : list word) (h : gmap nat word) :
  buffer h x xs -> (n <= length xs)%nat ->
  - 2 ^ (pwidth - 1) <= exact_sum word.signed (take n xs) < 2 ^ (pwidth - 1) ->
  exists r : pword, sum (promote := signed_promote) n x h = Some (r, h)
    /\ word.signed r = exact_sum word.signed (take n xs).
Proof.
  intros Hb Hn Hr. eexists. split; [by apply sum_spec|].
  set (r := foldl _ _ _).
  assert (E : r = word.of_Z (exact_sum word.signed (take n xs))).
  { apply word.unsigned_inj. unfold r. rewrite signed_accumulate.
    simpl. rewrite word.unsigned_of_Z_0, word.unsigned_of_Z. done. }
  rewrite E, word.signed_of_Z. by apply word.swrap_inrange.
Qed.

End IntegerSums.

(** ** The codec *)

Section ParserRules.

Lemma pbind_Ok {A B} (p : parser A) (k : A -> parser B) bs a rest :
  p bs = Ok (a, rest) -> pbind p k bs = k a rest.
Proof. intros E. unfold pbind. by rewrite E. Qed.


Lemma get_bytes_app (bs rest : list byte) :
  get_bytes (length bs) (bs ++ rest) = Ok (bs, rest).
Proof.
  unfold get_bytes. rewrite decide_True by (rewrite length_app; lia).
  by rewrite take_app_length, drop_app_length.
Qed.



Lemma get_fixed_put (k : nat) (n : N) rest :
  (Z.of_N n < 2 ^ (Z.of_nat k * 8))%Z ->
  pbind (get_bytes k) (fun bs => pret (Z.to_N (le_combine bs)))
        (le_split k (Z.of_N n) ++ rest) = Ok (n, rest).
Proof.
  intros Hn. rewrite <- (length_le_split k (Z.of_N n)) at 1.
  rewrite (pbind_Ok _ _ _ _ _ (get_bytes_app _ _)). unfold pret.
  rewrite le_combine_split, Z.mod_small by lia. by rewrite N2Z.id.
Qed.


Lemma get_u64_put (n : N) rest :
  (n < 2 ^ 64)%N -> get_u64 (put_u64 n ++ rest) = Ok (n, rest).
Proof.
  intros Hn. apply get_fixed_put.
  change (2 ^ (Z.of_nat 8 * 8))%Z with (Z.of_N (2 ^ 64)). lia.
Qed.


Lemma get_many_concat {A} (p : parser A) (enc : A -> list byte) (l : list A) rest :
  Forall (fun a => forall rest', p (enc a ++ rest') = Ok (a, rest')) l ->
  get_many (length l) p (concat (enc <$> l) ++ rest) = Ok (l, rest).
Proof.
  induction 1 as [|a l Ha _ IH]; [done|].
  simpl. rewrite <- app_assoc.
  rewrite (pbind_Ok _ _ _ _ _ (Ha _)).
  by rewrite (pbind_Ok _ _ _ _ _ IH).
Qed.


Lemma get_end_nil : get_end [] = Ok (tt, []).
Proof. done. Qed.

End ParserRules.

Section CodecFacts.
Context {T : Type} {binary : Binary T}.
Context (index_size : nat).

Lemma get_index_put (i : N) rest :
  index_ok index_size i -> get_index index_size (put_index index_size i ++ rest) = Ok (i, rest).
Proof. apply get_fixed_put. Qed.


Lemma get_elem_put {exact : BinaryExact T} (v : T) rest :
  get_elem (to_bytes v ++ rest) = Ok (v, rest).
Proof.
  unfold get_elem. rewrite <- (to_bytes_length v).
  rewrite (pbind_Ok _ _ _ _ _ (get_bytes_app _ _)). unfold pret.
  by rewrite from_to_bytes.
Qed.

Lemma decode_dense_serialize {exact : BinaryExact T} (a : DenseArray T) :
  dense_wf a ->
  decode_dense (N.of_nat (length (dims a))) (serialize_dense a) = Ok (a, []).
Proof.
  intros (Hdims & Hsize & Hlen). unfold decode_dense, serialize_dense.
  assert (Hrank : (N.of_nat (length (dims a)) < 2 ^ 64)%N) by (destruct a; done).
  rewrite (pbind_Ok _ _ _ _ _ (get_u64_put _ _ Hrank)).
  rewrite N.eqb_refl. cbn [negb].
  rewrite Nat2N.id.
  rewrite (pbind_Ok _ _ _ _ _ (get_many_concat get_u64 put_u64 (dims a) _
    (Forall_impl _ _ _ Hdims (fun d Hd rest' => get_u64_put d rest' Hd)))).
  rewrite (pbind_Ok _ _ _ _ _ (get_u64_put _ _ Hsize)).
  fold (dense_size a). rewrite N.eqb_refl. cbn [negb].
  rewrite <- Hlen, Nat2N.id.
  rewrite <- (app_nil_r (concat _)).
  rewrite (pbind_Ok _ _ _ _ _ (get_many_concat get_elem to_bytes (dense_data a) []
    (Forall_true _ _ (fun v rest' => get_elem_put v rest')))).
  rewrite (pbind_Ok _ _ _ _ _ get_end_nil).
  by destruct a.
Qed.

Lemma decode_sparse_serialize {exact : BinaryExact T} (a : SparseArray2d T) :
  sparse_wf index_size a ->
  decode_sparse index_size (serialize_sparse index_size a) = Ok (a, []).
Proof.
  intros (Hr & Hc & Hnnz & Hrows & Hcols & Hri & Hci).
  unfold decode_sparse, serialize_sparse.
  rewrite (pbind_Ok _ _ _ _ _ (get_u64_put _ _ Hr)).
  rewrite (pbind_Ok _ _ _ _ _ (get_u64_put _ _ Hc)).
  rewrite (pbind_Ok _ _ _ _ _ (get_u64_put _ _ Hnnz)).
  rewrite <- Hrows, Nat2N.id.
  rewrite (pbind_Ok _ _ _ _ _ (get_many_concat (get_index index_size)
    (put_index index_size) (row_indices a) _
    (Forall_impl _ _ _ Hri (fun i Hi rest' => get_index_put i rest' Hi)))).
  rewrite <- Hcols at 1.
  rewrite (pbind_Ok _ _ _ _ _ (get_many_concat (get_index index_size)
    (put_index index_size) (indices a) _
    (Forall_impl _ _ _ Hci (fun i Hi rest' => get_index_put i rest' Hi)))).
  rewrite <- (app_nil_r (concat _)).
  rewrite (pbind_Ok _ _ _ _ _ (get_many_concat get_elem to_bytes (data a) []
    (Forall_true _ _ (fun v rest' => get_elem_put v rest')))).
  rewrite (pbind_Ok _ _ _ _ _ get_end_nil).
  by destruct a.
Qed.

(** A lawful element encoding makes the codec a round trip on every
    well-formed array. *)
Lemma deserialize_serialize {exact : BinaryExact T} (a : AnyArray T) :
  array_wf index_size a ->
  deserialize index_size (class_of a) (serialize index_size a) = Ok a.
Proof.
  destruct a as [d | s]; simpl; intros Hwf.
  - pose proof (decode_dense_serialize d Hwf) as E.
    destruct d; unfold deserialize, class_of;
      [change (N.of_nat _) with 1%N in E | change (N.of_nat _) with 2%N in E];
      by rewrite E.
  - by rewrite (decode_sparse_serialize s Hwf).
Qed.

End CodecFacts.

(** ** Exactness of the element encodings *)

Lemma word_binary_exact {width : Z} {word : word.word width} {ok : word.ok word} :
  (width mod 8 = 0)%Z -> BinaryExact word (binary := word_binary).
Proof.
  intros Hw. pose proof word.width_pos as Hpos.
  assert (Hk : (Z.of_nat (Z.to_nat (width / 8)) * 8 = width)%Z).
  { rewrite Z2Nat.id by (apply Z.div_pos; lia).
    rewrite (Z.div_mod width 8) at 2 by lia. lia. }
  split; intros v; simpl.
  - apply length_le_split.
  - rewrite le_combine_split, Hk.
    rewrite Z.mod_small by apply word.unsigned_range.
    apply word.of_Z_unsigned.
Qed.

Lemma ctype_binary_exact (t : scalar_type) :
  t = float_t \/ t = double_t -> BinaryExact (ctype t) (binary := ctype_binary t).
Proof. intros [-> | ->]; by apply word_binary_exact. Qed.

(** C1: for single- and double-precision elements alike, deserializing the
    bytes of a well-formed dense or sparse array, as the class it has,
    returns that very array: same shape, same row pointers and column
    indices, same element bit patterns. *)
Theorem serialize_roundtrip (t : scalar_type) (index_size : nat)
    (a : AnyArray (ctype t)) :
  t = float_t \/ t = double_t ->
  array_wf index_size a ->
  deserialize (binary := ctype_binary t) index_size (class_of a)
    (serialize (binary := ctype_binary t) index_size a) = Ok a.
Proof.
  intros Ht Hwf.
  exact (deserialize_serialize index_size (exact := ctype_binary_exact t Ht) a Hwf).
Qed.

(** ** Failure of the decoder *)

Create HintDb codec.

Section DecoderFailure.
Context {T : Type} {binary : Binary T}.
Context (index_size : nat).

Lemma pret_failure {A} (a : A) : codec_failure (pret a).
Proof. by intros bs c. Qed.


Lemma pbind_failure {A B} (p : parser A) (k : A -> parser B) :
  codec_failure p -> (forall a, codec_failure (k a)) -> codec_failure (pbind p k).
Proof.
  intros Hp Hk bs c. unfold pbind.
  destruct (p bs) as [[a rest]|c'] eqn:E.
  - apply Hk.
  - intros [= <-]. by apply (Hp bs).
Qed.

Lemma get_bytes_failure k : codec_failure (get_bytes k).
Proof. intros bs c. unfold get_bytes. case_decide; [done|]. intros [= <-]. tauto. Qed.

Lemma get_fixed_failure k :
  codec_failure (pbind (get_bytes k) (fun bs => pret (Z.to_N (le_combine bs)))).
Proof.
  apply pbind_failure; [apply get_bytes_failure | intros; apply pret_failure].
Qed.

Lemma get_u64_failure : codec_failure get_u64.
Proof. apply get_fixed_failure. Qed.

Lemma get_index_failure : codec_failure (get_index index_size).
Proof. apply get_fixed_failure. Qed.

Lemma get_elem_failure : codec_failure (get_elem (T := T)).
Proof.
  apply pbind_failure; [apply get_bytes_failure | intros; apply pret_failure].
Qed.

Lemma get_many_failure {A} (k : nat) (p : parser A) :
  codec_failure p -> codec_failure (get_many k p).
Proof.
  intros Hp. induction k as [|k IH]; simpl; [apply pret_failure|].
  apply pbind_failure; [done|]. intros a.
  apply pbind_failure; [done|]. intros l. apply pret_failure.
Qed.

Lemma get_end_failure : codec_failure get_end.
Proof. intros [|b bs] c; [done|]. intros [= <-]. tauto. Qed.

#[local] Hint Resolve pret_failure get_u64_failure get_index_failure
  get_elem_failure get_end_failure get_many_failure : codec.







End DecoderFailure.

(** ** The serializer test *)

Lemma buffer_map_seq {T : Type} (p : ptr) (xs : list T) :
  buffer (map_seq p xs) p xs.
Proof. intros i v Hv. by apply lookup_map_seq_Some_inv. Qed.

Lemma buffer_app_l {T : Type} (h : gmap nat T) (p : ptr) (xs ys : list T) :
  buffer h p (xs ++ ys) -> buffer h p xs.
Proof. intros Hb i v Hv. apply Hb. by apply lookup_app_l_Some. Qed.

Lemma buffer_app_r {T : Type} (h : gmap nat T) (p : ptr) (xs ys : list T) :
  buffer h p (xs ++ ys) -> buffer h (p + length xs) ys.
Proof.
  intros Hb i v Hv. rewrite <- Nat.add_assoc. apply Hb.
  rewrite lookup_app_r by lia. by replace (length xs + i - length xs) with i by lia.
Qed.

Lemma sparse_array_wf (index_size : nat) :
  0 < index_size ->
  sparse_wf index_size SerializeSparseArray2d.sparse_array.
Proof.
  intros Hpos.
  assert (Hsmall : forall i, (i < 256)%N -> index_ok index_size i).
  { intros i Hi. unfold index_ok.
    apply Z.lt_le_trans with (2 ^ 8)%Z; [lia|].
    apply Z.pow_le_mono_r; lia. }
  unfold sparse_wf. simpl.
  repeat split; try done; repeat constructor; by apply Hsmall.
Qed.

(** C2: on the CSR matrix of the serializer test, the dot product of the
    dense vector [1..6] with the view of each row is 50, 220, 740 and 480;
    writing the matrix and reading it back gives a 4 by 6 matrix with the
    same four products. *)
Theorem sparse_rows_dot_before_and_after (index_size : nat) :
  0 < index_size ->
  let expected := Some <$> (double_of_Z <$> [50; 220; 740; 480]%Z) in
  SerializeSparseArray2d.row_dots SerializeSparseArray2d.sparse_array = expected
  /\ exists loaded_array,
       deserialize (binary := ctype_binary double_t) index_size SparseArray2dClass
         (serialize (binary := ctype_binary double_t) index_size
            (Sparse SerializeSparseArray2d.sparse_array))
       = Ok (Sparse loaded_array)
       /\ n_rows loaded_array = 4%N
       /\ n_cols loaded_array = 6%N
       /\ SerializeSparseArray2d.row_dots loaded_array = expected.
Proof.
  intros Hpos expected.
  assert (Hdots : SerializeSparseArray2d.row_dots
                    SerializeSparseArray2d.sparse_array = expected)
    by (vm_compute; reflexivity).
  split; [exact Hdots|].
  exists SerializeSparseArray2d.sparse_array.
  split; [|split; [reflexivity | split; [reflexivity | exact Hdots]]].
  apply (deserialize_serialize index_size
           (exact := ctype_binary_exact double_t (or_intror eq_refl))
           (Sparse SerializeSparseArray2d.sparse_array)).
  by apply sparse_array_wf.
Qed.

(** ** Dense [dot] *)

Section DenseDot.
Context {T : Type} {scalar : Scalar T}.

(** C7: [dot] on two dense arrays whose dimensions differ fails with
    [DimensionMismatch]; when the dimensions match it does not, and on
    arrays whose buffers have the length of their shape it returns the dot
    product of the two buffers. *)
Theorem dense_dot_dimension_check (a b : DenseArray T) :
  (dims a <> dims b -> dense_dot a b = Some (Fail DimensionMismatch))
  /\ (dims a = dims b -> dense_dot a b <> Some (Fail DimensionMismatch))
  /\ (dims a = dims b ->
      N.of_nat (length (dense_data a)) = dense_size a ->
      N.of_nat (length (dense_data b)) = dense_size b ->
      dense_dot a b = Some (Ok (dot_of_lists (dense_data a) (dense_data b)))).
Proof.
  unfold dense_dot. repeat split.
  - intros Hne. by rewrite decide_False.
  - intros Heq. rewrite decide_True by done.
    by destruct (dot _ _ _ _) as [[v h]|].
  - intros Heq Ha Hb. rewrite decide_True by done.
    assert (Hsize : dense_size b = dense_size a) by (unfold dense_size; by rewrite Heq).
    assert (Hn : N.to_nat (dense_size a) = length (dense_data a)) by lia.
    assert (Hlen : length (dense_data b) = length (dense_data a)) by lia.
    pose proof (buffer_map_seq 0 (dense_data a ++ dense_data b)) as Hbuf.
    rewrite (dot_spec _ 0 (length (dense_data a)) (dense_data a) (dense_data b));
      [| by apply buffer_app_l in Hbuf | by apply buffer_app_r in Hbuf | lia | lia].
    rewrite Hn, firstn_all. rewrite <- Hlen at 1. by rewrite firstn_all.
Qed.

End DenseDot.

(** ** The two variants *)

Section Variants.
Context (promoted : scalar_type -> Type).
Context (promote_ops : forall t, Promote (ctype t) (promoted t)).
Context (backend : cblas_backend).
Context (TICK_CATLAS_AVAILABLE : bool).

(** C3: at every element type other than [float] and [double] the
    backend-delegating variant is the unoptimized variant, operation for
    operation; at every element type its [sum] is the unoptimized [sum], and
    so is its [set] unless the backend's own [set] is compiled in. *)
Theorem cblas_falls_back_to_unoptimized (t : scalar_type) :
  (t <> float_t -> t <> double_t ->
   vector_operations_cblas promoted promote_ops backend TICK_CATLAS_AVAILABLE t
   = vector_operations_unoptimized (scalar := ctype_scalar t))
  /\ vo_sum (vector_operations_cblas promoted promote_ops backend
               TICK_CATLAS_AVAILABLE t)
     = vo_sum (vector_operations_unoptimized (scalar := ctype_scalar t))
  /\ (TICK_CATLAS_AVAILABLE = false ->
      vo_set (vector_operations_cblas promoted promote_ops backend
                TICK_CATLAS_AVAILABLE t)
      = vo_set (vector_operations_unoptimized (scalar := ctype_scalar t)
                  (promote := promote_ops t))).
Proof.
  split; [|split].
  - intros Hf Hd. by destruct t.
  - by destruct t.
  - intros ->. by destruct t.
Qed.

End Variants.

(** ** Sums in the promoted type *)

Lemma exact_sum_unsigned_nonneg {width : Z} {word : word.word width}
    {ok : word.ok word} (xs : list word) :
  (0 <= exact_sum word.unsigned xs)%Z.
Proof.
  induction xs as [|v xs IH]; simpl; [lia|].
  pose proof (word.unsigned_range v). lia.
Qed.

(** C5: [sum(n, x)] is the accumulation of [x[0..n)], left to right, in the
    promoted type from the promoted zero.  For an integer element type
    accumulated in an integer type, the result is the mathematical sum of
    the elements (read as unsigned, or as signed, numbers) whenever that sum
    is representable in the accumulator type, whatever the width of the
    element type. *)
Theorem sum_accumulates_in_promoted_type :
  (forall (T P : Type) (promote : Promote T P)
          (n : nat) (x : ptr) (xs : list T) (h : gmap nat T),
     buffer h x xs -> n <= length xs ->
     sum n x h = Some (foldl padd pzero (take n xs), h))
  /\ (forall (width : Z) (word : word.word width) (ok : word.ok word)
             (pwidth : Z) (pword : word.word pwidth) (pok : word.ok pword)
             (n : nat) (x : ptr) (xs : list word) (h : gmap nat word),
        buffer h x xs -> n <= length xs ->
        (exact_sum word.unsigned (take n xs) < 2 ^ pwidth)%Z ->
        exists r : pword,
          sum (promote := unsigned_promote) n x h = Some (r, h)
          /\ word.unsigned r = exact_sum word.unsigned (take n xs))
  /\ (forall (width : Z) (word : word.word width) (ok : word.ok word)
             (pwidth : Z) (pword : word.word pwidth) (pok : word.ok pword)
             (n : nat) (x : ptr) (xs : list word) (h : gmap nat word),
        buffer h x xs -> n <= length xs ->
        (- 2 ^ (pwidth - 1) <= exact_sum word.signed (take n xs) < 2 ^ (pwidth - 1))%Z ->
        exists r : pword,
          sum (promote := signed_promote) n x h = Some (r, h)
          /\ word.signed r = exact_sum word.signed (take n xs)).
Proof.
  split; [|split].
  - intros T P promote n x xs h. apply sum_spec.
  - intros width word ok pwidth pword pok n x xs h Hb Hn Hs.
    apply unsigned_sum_exact; [done | done |].
    split; [apply exact_sum_unsigned_nonneg | done].
  - intros width word ok pwidth pword pok n x xs h. apply signed_sum_exact.
Qed.

(** ** Empty input *)

Section EmptyInput.
Context {T P : Type} {scalar : Scalar T} {promote : Promote T P}.

(** C9: with [n = 0] no operation touches memory, whatever the pointers and
    the store are: [dot] returns [T{0}], [sum] returns the promoted zero, and
    [scale], [set] and [mult_incr] return with the store unchanged. *)
Theorem empty_input_is_noop (alpha : T) (x y : ptr) (h : gmap nat T) :
  dot 0 x y h = Some (of_Z 0, h)
  /\ sum 0 x h = Some (pzero, h)
  /\ scale 0 alpha x h = Some (tt, h)
  /\ set 0 alpha x h = Some (tt, h)
  /\ mult_incr 0 alpha x y h = Some (tt, h).
Proof.
  repeat split; try reflexivity.
  unfold sum, accumulate.
  replace (x + 0 - x) with 0 by lia. simpl.
  destruct (decide (x = x + 0)) as [_ | Hne]; [reflexivity | lia].
Qed.

End EmptyInput.

(** ** Aliased operands *)

(** C10, as first stated, fails: called with the same buffer as [x] and as
    [y], [mult_incr] writes [x[0]]. *)
Lemma mult_incr_same_buffer_modifies_x :
  let h : gmap nat double := {[ 0 := double_of_Z 1 ]} in
  exists h',
    mult_incr (scalar := double_scalar) 1 (double_of_Z 1) 0 0 h = Some (tt, h')
    /\ h' !! (0 + 0) <> h !! (0 + 0).
Proof.
  eexists. split; [vm_compute; reflexivity|].
  vm_compute. discriminate.
Qed.

(** Where [y] starts inside [x[1..n)] an iteration reads an element of [x]
    that an earlier iteration has already updated: with [x = [1; 1; 1]] and
    [y = x + 1], the last element becomes 3, not 2. *)
Example mult_incr_forward_overlap :
  let h : gmap nat double := map_seq 0 (double_of_Z <$> [1; 1; 1]%Z) in
  exists h',
    mult_incr (scalar := double_scalar) 2 (double_of_Z 1) 0 1 h = Some (tt, h')
    /\ h' !! 2 = Some (double_of_Z 3).
Proof. eexists. split; vm_compute; reflexivity. Qed.

(** ** The laws behind C6, for integer element types *)

Section IntegerLaws.
Context {width : Z} {word : word.word width} {word_ok : word.ok word}.
Context {pwidth : Z} {pword : word.word pwidth} {pword_ok : word.ok pword}.


Lemma integer_padd_zero :
  let unsigned_ops := unsigned_promote (word := word) (pword := pword) in
  let signed_ops := signed_promote (word := word) (pword := pword) in
  padd (Promote := unsigned_ops) (pzero (Promote := unsigned_ops)) (of_Z 0)
  = pzero (Promote := unsigned_ops)
  /\ padd (Promote := signed_ops) (pzero (Promote := signed_ops)) (of_Z 0)
     = pzero (Promote := signed_ops).
Proof.
  intros unsigned_ops signed_ops. unfold unsigned_ops, signed_ops. simpl.
  rewrite word.unsigned_of_Z_0, word.signed_of_Z.
  rewrite word.swrap_inrange
    by (pose proof (word.half_modulus_pos (word := word)); lia).
  assert (E : word.add (word.of_Z 0) (word.of_Z 0) = (word.of_Z 0 : pword)).
  { apply word.unsigned_inj.
    rewrite word.unsigned_add, word.unsigned_of_Z_0. reflexivity. }
  by rewrite E.
Qed.

End IntegerLaws.

(** ** Multiplication by one in IEEE arithmetic *)

Section IEEEFacts.
Local Open Scope Z_scope.

Section ExactProducts.
Context (prec emax : Z).






End ExactProducts.





Section Formats.
Context (mw ew : Z) (format : ieee_format mw ew).




End Formats.



End IEEEFacts.

(** ** Scaling by one, filling with zero *)


(** ** Instances on concrete inputs *)

Lemma serialize_roundtrip_witness :
  let a : AnyArray (ctype float_t) :=
    Dense (Array2d 2 3 (of_Z (Scalar := float_scalar) <$> [1; 2; 3; 4; 5; 6]%Z)) in
  (float_t = float_t \/ float_t = double_t)
  /\ array_wf 4 a
  /\ deserialize (binary := ctype_binary float_t) 4 (class_of a)
       (serialize (binary := ctype_binary float_t) 4 a) = Ok a.
Proof.
  intros a.
  assert (Ht : float_t = float_t \/ float_t = double_t) by (left; reflexivity).
  assert (Hwf : array_wf 4 a).
  { unfold a, array_wf, dense_wf. simpl.
    split; [repeat constructor | split; reflexivity]. }
  split; [exact Ht|]. split; [exact Hwf|].
  exact (serialize_roundtrip float_t 4 a Ht Hwf).
Defined.

Lemma sparse_rows_dot_witness :
  0 < 4
  /\ SerializeSparseArray2d.row_dots SerializeSparseArray2d.sparse_array
     = Some <$> (double_of_Z <$> [50; 220; 740; 480]%Z)
  /\ exists loaded_array,
       deserialize (binary := ctype_binary double_t) 4 SparseArray2dClass
         (serialize (binary := ctype_binary double_t) 4
            (Sparse SerializeSparseArray2d.sparse_array))
       = Ok (Sparse loaded_array)
       /\ n_rows loaded_array = 4%N
       /\ n_cols loaded_array = 6%N
       /\ SerializeSparseArray2d.row_dots loaded_array
          = Some <$> (double_of_Z <$> [50; 220; 740; 480]%Z).
Proof.
  assert (Hpos : 0 < 4) by lia.
  split; [exact Hpos|].
  exact (sparse_rows_dot_before_and_after 4 Hpos).
Defined.

Lemma cblas_falls_back_witness :
  let t := integral_t true 32 in
  t <> float_t /\ t <> double_t
  /\ vector_operations_cblas ctype (fun t => self_promote (scalar := ctype_scalar t))
       portable_backend false t
     = vector_operations_unoptimized (scalar := ctype_scalar t)
         (promote := self_promote (scalar := ctype_scalar t)).
Proof.
  intros t.
  assert (Hf : t <> float_t) by discriminate.
  assert (Hd : t <> double_t) by discriminate.
  split; [exact Hf|]. split; [exact Hd|].
  exact (proj1 (cblas_falls_back_to_unoptimized ctype
                  (fun t => self_promote (scalar := ctype_scalar t))
                  portable_backend false t) Hf Hd).
Defined.


Lemma sum_accumulates_witness :
  (let xs := double_of_Z <$> [1; 2; 3]%Z in
   sum (promote := self_promote (scalar := double_scalar)) 2 5 (map_seq 5 xs)
   = Some (double_of_Z 3, map_seq 5 xs))
  /\ (let xs : list Naive.word32 := word.of_Z <$> [4294967295; 4294967295; 5]%Z in
      exists r : Naive.word64,
        sum (promote := unsigned_promote) 3 0 (map_seq 0 xs) = Some (r, map_seq 0 xs)
        /\ word.unsigned r = 8589934595%Z)
  /\ (let xs : list (Naive.word 8) := word.of_Z <$> [-100; -100; 127]%Z in
      exists r : Naive.word 8,
        sum (promote := signed_promote) 3 0 (map_seq 0 xs) = Some (r, map_seq 0 xs)
        /\ word.signed r = (-73)%Z).
Proof.
  destruct sum_accumulates_in_promoted_type as (Hgen & Huns & Hsig).
  split; [|split].
  - intros xs.
    exact (Hgen double double (self_promote (scalar := double_scalar)) 2 5 xs
             (map_seq 5 xs) (buffer_map_seq 5 xs) ltac:(simpl; lia)).
  - intros xs.
    exact (Huns 32%Z Naive.word32 Naive.word32_ok 64%Z Naive.word64 Naive.word64_ok
             3 0 xs (map_seq 0 xs) (buffer_map_seq 0 xs) ltac:(simpl; lia)
             ltac:(vm_compute; reflexivity)).
  - intros xs.
    exact (Hsig 8%Z (Naive.word 8) (Naive.ok 8 eq_refl) 8%Z (Naive.word 8)
             (Naive.ok 8 eq_refl)
             3 0 xs (map_seq 0 xs) (buffer_map_seq 0 xs) ltac:(simpl; lia)
             ltac:(split; vm_compute; congruence)).
Defined.


Lemma dense_dot_dimension_witness :
  let a := Array 3 (double_of_Z <$> [1; 2; 3]%Z) in
  let b := Array 2 (double_of_Z <$> [1; 2]%Z) in
  dense_dot (scalar := double_scalar) a b = Some (Fail DimensionMismatch)
  /\ dense_dot (scalar := double_scalar) a a <> Some (Fail DimensionMismatch)
  /\ dense_dot (scalar := double_scalar) a a = Some (Ok (double_of_Z 14)).
Proof.
  intros a b.
  destruct (dense_dot_dimension_check (scalar := double_scalar) a b) as (Hdiff & _).
  destruct (dense_dot_dimension_check (scalar := double_scalar) a a) as (_ & Hno & Hok).
  split; [apply Hdiff; discriminate|].
  split; [apply Hno; reflexivity|].
  exact (Hok eq_refl eq_refl eq_refl).
Defined.

Lemma unoptimized_frame_witness :
  let h : gmap nat double := map_seq 0 (double_of_Z <$> [1; 2; 3; 4]%Z) in
  let alpha := double_of_Z 2 in
  (exists r, dot (scalar := double_scalar) 2 0 2 h = Some (r, h))
  /\ (exists r, sum (promote := self_promote (scalar := double_scalar)) 2 0 h = Some (r, h))
  /\ (exists h', scale (scalar := double_scalar) 2 alpha 0 h = Some (tt, h')
        /\ unchanged_outside 0 2 h h')
  /\ (exists h', set 2 alpha 0 h = Some (tt, h') /\ unchanged_outside 0 2 h h')
  /\ (exists h', mult_incr (scalar := double_scalar) 2 alpha 0 2 h = Some (tt, h')
        /\ unchanged_outside 2 2 h h'
        /\ forall i, i < 2 -> h' !! (0 + i) = h !! (0 + i)).
Proof.
  intros h alpha.
  destruct (unoptimized_frame (scalar := double_scalar)
              (promote := self_promote (scalar := double_scalar)) 2 alpha 0 2 h)
    as (Hdot & Hsum & Hscale & Hset & Hmult).
  split; [|split; [|split; [|split]]].
  - destruct (dot (scalar := double_scalar) 2 0 2 h) as [[r h']|] eqn:E;
      [|vm_compute in E; discriminate].
    exists r. by rewrite (Hdot r h' eq_refl).
  - destruct (sum (promote := self_promote (scalar := double_scalar)) 2 0 h)
      as [[r h']|] eqn:E; [|vm_compute in E; discriminate].
    exists r. by rewrite (Hsum r h' eq_refl).
  - destruct (scale (scalar := double_scalar) 2 alpha 0 h) as [[[] h']|] eqn:E;
      [|vm_compute in E; discriminate].
    exists h'. split; [reflexivity | exact (Hscale tt h' eq_refl)].
  - destruct (set 2 alpha 0 h) as [[[] h']|] eqn:E;
      [|vm_compute in E; discriminate].
    exists h'. split; [reflexivity | exact (Hset tt h' eq_refl)].
  - destruct (mult_incr (scalar := double_scalar) 2 alpha 0 2 h) as [[[] h']|] eqn:E;
      [|vm_compute in E; discriminate].
    exists h'. destruct (Hmult tt h' eq_refl) as [Hout Hx].
    split; [reflexivity|]. split; [exact Hout|]. apply Hx. lia.
Defined.

(** * Further properties of the vector operations *)

(** ** What the loops address *)

Section Footprint.
Context {T P : Type} {scalar : Scalar T} {promote : Promote T P}.
Implicit Types h : gmap nat T.

Lemma allocated_buffer h (p : ptr) (n : nat) :
  allocated h p n -> exists xs, buffer h p xs /\ length xs = n.
Proof.
  induction n as [|n IH]; intros Ha.
  - exists []. split; [by intros i v | done].
  - destruct IH as (xs & Hb & Hlen); [intros i Hi; apply Ha; lia|].
    destruct (Ha n) as [v Hv]; [lia|].
    exists (xs ++ [v]). split; [|rewrite length_app; simpl; lia].
    intros i w Hw. apply lookup_app_Some in Hw as [Hw | [Hge Hw]].
    + by apply Hb.
    + apply list_lookup_singleton_Some in Hw as [Hi <-].
      replace i with n by lia. done.
Qed.

Lemma buffer_allocated h (p : ptr) (xs : list T) (n : nat) :
  buffer h p xs -> n <= length xs -> allocated h p n.
Proof.
  intros Hb Hn i Hi.
  destruct (buffer_lookup h p xs i Hb) as (v & _ & Hv); [lia | eauto].
Qed.

Lemma same_dom_is_Some h h' (a : nat) :
  dom h' = dom h -> is_Some (h' !! a) -> is_Some (h !! a).
Proof. intros Hd. rewrite <- !elem_of_dom. by rewrite Hd. Qed.

Lemma load_keeps (p : ptr) h v h' :
  load p h = Some (v, h') -> h' = h /\ is_Some (h !! p).
Proof. intros E. apply load_inv in E as [-> E]. eauto. Qed.

Lemma store_keeps (p : ptr) (v : T) h u h' :
  store p v h = Some (u, h') -> dom h' = dom h /\ is_Some (h !! p).
Proof.
  intros E. apply store_inv in E as [-> E]. split; [|done].
  by apply dom_insert_lookup_L.
Qed.

(** What a returning [dot] shows about the store. *)
Lemma dot_returns_inv (n : nat) (x y : ptr) (r : T) h h' :
  dot n x y h = Some (r, h') -> allocated h x n /\ allocated h y n.
Proof.
  intros E. unfold dot in E.
  apply (for_loop_partial
    (fun j _ h0 => h0 = h /\ allocated h x j /\ allocated h y j)) in E.
  - tauto.
  - split; [done|]. split; intros i Hi; lia.
  - intros j a h0 a1 h1 Hj (-> & Hx & Hy) E1.
    apply bind_inv in E1 as (xi & h2 & L1 & E1). apply load_keeps in L1 as [-> Lx].
    apply bind_inv in E1 as (yi & h3 & L2 & E1). apply load_keeps in L2 as [-> Ly].
    injection E1 as _ <-. split; [done|].
    split; intros i Hi; (destruct (decide (i = j)) as [-> | Hne];
      [done | (apply Hx || apply Hy); lia]).
Qed.

Lemma accumulate_loop_returns_inv (fuel : nat) (first : ptr) (init r : P) h h' :
  accumulate_loop fuel first (first + fuel) init h = Some (r, h') ->
  allocated h first fuel.
Proof.
  revert first init. induction fuel as [|fuel IH]; intros first init E i Hi; [lia|].
  simpl in E. destruct (decide (first = first + S fuel)); [lia|].
  apply bind_inv in E as (v & h1 & L & E). apply load_keeps in L as [-> Lf].
  destruct i as [|i]; [by rewrite Nat.add_0_r|].
  replace (first + S fuel) with (S first + fuel) in E by lia.
  replace (first + S i) with (S first + i) by lia.
  apply (IH _ _ E). lia.
Qed.

Lemma sum_returns_inv (n : nat) (x : ptr) (r : P) h h' :
  sum n x h = Some (r, h') -> allocated h x n.
Proof.
  unfold sum, accumulate. replace (x + n - x) with n by lia.
  apply accumulate_loop_returns_inv.
Qed.

Lemma scale_returns_inv (n : nat) (alpha : T) (x : ptr) (u : unit) h h' :
  scale n alpha x h = Some (u, h') -> dom h' = dom h /\ allocated h x n.
Proof.
  intros E. unfold scale in E.
  apply (for_loop_partial
    (fun j _ h0 => dom h0 = dom h /\ allocated h x j)) in E.
  - done.
  - split; [done | intros i Hi; lia].
  - intros j a h0 a1 h1 Hj (Hd & Hx) E1.
    apply bind_inv in E1 as (xi & h2 & L1 & E1). apply load_keeps in L1 as [-> Lx].
    apply store_keeps in E1 as [Hd1 _].
    split; [congruence|]. intros i Hi. destruct (decide (i = j)) as [-> | Hne].
    + by apply (same_dom_is_Some h h0).
    + apply Hx. lia.
Qed.

Lemma set_returns_inv (n : nat) (alpha : T) (x : ptr) (u : unit) h h' :
  set n alpha x h = Some (u, h') -> dom h' = dom h /\ allocated h x n.
Proof.
  intros E. unfold set in E.
  apply (for_loop_partial
    (fun j _ h0 => dom h0 = dom h /\ allocated h x j)) in E.
  - done.
  - split; [done | intros i Hi; lia].
  - intros j a h0 a1 h1 Hj (Hd & Hx) E1.
    apply store_keeps in E1 as [Hd1 Lx].
    split; [congruence|]. intros i Hi. destruct (decide (i = j)) as [-> | Hne].
    + by apply (same_dom_is_Some h h0).
    + apply Hx. lia.
Qed.

Lemma mult_incr_returns_inv (n : nat) (alpha : T) (x y : ptr) (u : unit) h h' :
  mult_incr n alpha x y h = Some (u, h') ->
  dom h' = dom h /\ allocated h x n /\ allocated h y n.
Proof.
  intros E. unfold mult_incr in E.
  apply (for_loop_partial
    (fun j _ h0 => dom h0 = dom h /\ allocated h x j /\ allocated h y j)) in E.
  - done.
  - split; [done|]. split; intros i Hi; lia.
  - intros j a h0 a1 h1 Hj (Hd & Hx & Hy) E1.
    apply bind_inv in E1 as (xi & h2 & L1 & E1). apply load_keeps in L1 as [-> Lx].
    apply bind_inv in E1 as (yi & h3 & L2 & E1). apply load_keeps in L2 as [-> Ly].
    apply store_keeps in E1 as [Hd1 _].
    split; [congruence|].
    split; intros i Hi; (destruct (decide (i = j)) as [-> | Hne];
      [by apply (same_dom_is_Some h h0) | (apply Hx || apply Hy); lia]).
Qed.

(** What makes the loops return: allocated cells are enough.  [mult_incr]
    needs no separation of [x] and [y] for that. *)
Lemma mult_incr_returns (n : nat) (alpha : T) (x y : ptr) h :
  allocated h x n -> allocated h y n ->
  exists h', mult_incr n alpha x y h = Some (tt, h').
Proof.
  intros Hx Hy. unfold mult_incr.
  destruct (for_loop_total (fun _ (_ : unit) h0 => dom h0 = dom h)
    (fun i _ =>
       xi <- load (x + i) ;; yi <- load (y + i) ;;
       store (y + i) (add yi (mul alpha xi)))
    n 0 tt h) as ([] & h' & E & _); [done | | eauto].
  intros j [] h0 Hj Hd.
  destruct (same_dom_is_Some h0 h (x + j)) as [xj Lx]; [done | apply Hx; lia|].
  destruct (same_dom_is_Some h0 h (y + j)) as [yj Ly]; [done | apply Hy; lia|].
  eexists tt, _. split.
  - unfold bind. rewrite (load_Some _ _ _ Lx), (load_Some _ _ _ Ly).
    by apply store_Some with yj.
  - rewrite <- Hd. apply dom_insert_lookup_L. eauto.
Qed.

End Footprint.

Section FootprintTheorems.
Context {T P : Type} {scalar : Scalar T} {promote : Promote T P}.
Implicit Types h : gmap nat T.

(** X1: on two readable buffers of length at least [n], which may overlap or
    be the same, [dot(n, x, y)] returns the products [x[i] * y[i]]
    accumulated from [T{0}] in index order, and leaves the store as it
    was. *)
Theorem dot_accumulates_products (n : nat) (x y : ptr) (xs ys : list T) h :
  buffer h x xs -> buffer h y ys -> n <= length xs -> n <= length ys ->
  dot n x y h
  = Some (foldl (fun result p => add result (mul p.1 p.2)) (of_Z 0)
            (zip (take n xs) (take n ys)), h).
Proof. apply dot_spec. Qed.

(** X2: [scale(n, alpha, x)] on a buffer of length at least [n] returns, and
    afterwards every [x[i]] with [i < n] is its old value multiplied on the
    right by [alpha], every other cell being as before. *)
Theorem scale_multiplies_each_element (n : nat) (alpha : T) (x : ptr)
    (xs : list T) h :
  buffer h x xs -> n <= length xs ->
  exists h', scale n alpha x h = Some (tt, h')
    /\ (forall i xi, i < n -> xs !! i = Some xi ->
          h' !! (x + i) = Some (mul xi alpha))
    /\ (forall a, ~ (x <= a < x + n) -> h' !! a = h !! a).
Proof.
  intros Hx Hn.
  destruct (scale_spec n alpha x xs h Hx Hn) as (h' & E & Hout & Hin).
  exists h'. split; [done|]. split; [done|]. apply Hout.
Qed.

(** X3: [set(n, alpha, x)] on a buffer of length at least [n] returns, and
    afterwards [x[0..n)] holds [n] copies of [alpha], every other cell being
    as before. *)
Theorem set_fills_with_alpha (n : nat) (alpha : T) (x : ptr) (xs : list T) h :
  buffer h x xs -> n <= length xs ->
  exists h', set n alpha x h = Some (tt, h')
    /\ (forall i, i < n -> h' !! (x + i) = Some alpha)
    /\ (forall a, ~ (x <= a < x + n) -> h' !! a = h !! a).
Proof.
  intros Hx Hn.
  destruct (set_spec n alpha x xs h Hx Hn) as (h' & E & Hout & Hin).
  exists h'. split; [done|]. split; [|apply Hout].
  intros i Hi. apply Hin. apply lookup_replicate. done.
Qed.

(** X4: the operations that write never allocate or free a cell: after
    [scale], [set] or [mult_incr] the store has exactly the addresses it
    had. *)
Theorem writes_keep_the_allocation (n : nat) (alpha : T) (x y : ptr) h h' (u : unit) :
  scale n alpha x h = Some (u, h')
  \/ set n alpha x h = Some (u, h')
  \/ mult_incr n alpha x y h = Some (u, h') ->
  dom h' = dom h.
Proof.
  intros [E | [E | E]].
  - by apply scale_returns_inv in E as [Hd _].
  - by apply set_returns_inv in E as [Hd _].
  - by apply mult_incr_returns_inv in E as [Hd _].
Qed.

(** X5: each operation addresses the cells [x[0..n)] (and [y[0..n)]) and no
    other: it returns exactly when all of them are allocated, wherever the
    two buffers lie. *)
Theorem returns_iff_allocated (n : nat) (alpha : T) (x y : ptr) h :
  (is_Some (dot n x y h) <-> allocated h x n /\ allocated h y n)
  /\ (is_Some (sum n x h) <-> allocated h x n)
  /\ (is_Some (scale n alpha x h) <-> allocated h x n)
  /\ (is_Some (set n alpha x h) <-> allocated h x n)
  /\ (is_Some (mult_incr n alpha x y h) <-> allocated h x n /\ allocated h y n).
Proof.
  split; [|split; [|split; [|split]]]; split.
  - intros [[r h'] E]. by apply dot_returns_inv in E.
  - intros [Hx Hy].
    destruct (allocated_buffer h x n Hx) as (xs & Hbx & Hlx).
    destruct (allocated_buffer h y n Hy) as (ys & Hby & Hly).
    rewrite (dot_spec n x y xs ys h) by (done || lia). eauto.
  - intros [[r h'] E]. by apply sum_returns_inv in E.
  - intros Hx. destruct (allocated_buffer h x n Hx) as (xs & Hbx & Hlx).
    rewrite (sum_spec n x xs h) by (done || lia). eauto.
  - intros [[u h'] E]. by apply scale_returns_inv in E as [_ Hx].
  - intros Hx. destruct (allocated_buffer h x n Hx) as (xs & Hbx & Hlx).
    destruct (scale_spec n alpha x xs h) as (h' & E & _); [done | lia|].
    rewrite E. eauto.
  - intros [[u h'] E]. by apply set_returns_inv in E as [_ Hx].
  - intros Hx. destruct (allocated_buffer h x n Hx) as (xs & Hbx & Hlx).
    destruct (set_spec n alpha x xs h) as (h' & E & _); [done | lia|].
    rewrite E. eauto.
  - intros [[u h'] E]. by apply mult_incr_returns_inv in E as (_ & Hx & Hy).
  - intros [Hx Hy]. destruct (mult_incr_returns n alpha x y h Hx Hy) as [h' E].
    rewrite E. eauto.
Qed.

(** X6: writing twice is writing the second value: [set(n, a, x)] followed by
    [set(n, b, x)] behaves as [set(n, b, x)] alone, on every store. *)
Theorem set_last_write_wins (n : nat) (a b : T) (x : ptr) h :
  bind (set n a x) (fun _ => set n b x) h = set n b x h.
Proof.
  unfold bind. destruct (set n a x h) as [[[] h1]|] eqn:E1.
  - destruct (set_returns_inv _ _ _ _ _ _ E1) as [_ Hx].
    destruct (allocated_buffer h x n Hx) as (xs & Hbx & Hlx).
    destruct (set_spec n a x xs h) as (h1' & E1' & Hout1 & Hin1); [done | lia|].
    assert (h1' = h1) as -> by congruence.
    destruct (set_spec n b x (replicate n a) h1) as (h2 & E2 & Hout2 & Hin2);
      [done | by rewrite length_replicate|].
    destruct (set_spec n b x xs h) as (h3 & E3 & Hout3 & Hin3); [done | lia|].
    rewrite E2, E3. do 2 f_equal. apply map_eq. intros k.
    destruct (decide (in_range x n k)) as [Hk | Hk].
    + unfold in_range in Hk. replace k with (x + (k - x)) by lia.
      rewrite (Hin2 (k - x) b), (Hin3 (k - x) b);
        [done | |]; apply lookup_replicate; split; (done || lia).
    + by rewrite Hout2, Hout1, Hout3.
  - destruct (set n b x h) as [[[] h3]|] eqn:E3; [|done].
    destruct (set_returns_inv _ _ _ _ _ _ E3) as [_ Hx].
    destruct (allocated_buffer h x n Hx) as (xs & Hbx & Hlx).
    destruct (set_spec n a x xs h) as (h1 & E1' & _); [done | lia|].
    congruence.
Qed.

End FootprintTheorems.

(** ** Commutativity of [dot] *)







(** ** The effect of [mult_incr], with its frame *)

Lemma mult_incr_effect {T : Type} {scalar : Scalar T} (n : nat) (alpha : T)
    (x y : ptr) (xs ys : list T) (h : gmap nat T) :
  buffer h x xs -> buffer h y ys -> n <= length xs -> n <= length ys ->
  ~ (x < y < x + n) ->
  exists h', mult_incr n alpha x y h = Some (tt, h')
    /\ unchanged_outside y n h h'
    /\ forall i xi yi, i < n -> xs !! i = Some xi -> ys !! i = Some yi ->
         h' !! (y + i) = Some (add yi (mul alpha xi)).
Proof.
  intros Hx Hy Hnx Hny Hov.
  destruct (mult_incr_returns n alpha x y h) as [h' E];
    [by apply buffer_allocated with xs | by apply buffer_allocated with ys|].
  exists h'. split; [done|]. split; [by apply mult_incr_frame in E|].
  unfold mult_incr in E.
  apply (for_loop_partial
    (fun j _ h0 =>
       unchanged_outside y j h h0
       /\ forall i xi yi, i < j -> xs !! i = Some xi -> ys !! i = Some yi ->
            h0 !! (y + i) = Some (add yi (mul alpha xi)))) in E.
  - intros i xi yi Hi. by apply E.
  - split; [apply unchanged_outside_refl | intros; lia].
  - intros j a h0 a1 h1 Hj [Hout Hin] E1.
    destruct (buffer_lookup h x xs j Hx) as (xj & Exj & Lx); [lia|].
    destruct (buffer_lookup h y ys j Hy) as (yj & Eyj & Ly); [lia|].
    assert (Lx0 : h0 !! (x + j) = Some xj).
    { rewrite Hout; [done|]. unfold in_range. lia. }
    assert (Ly0 : h0 !! (y + j) = Some yj).
    { rewrite Hout; [done|]. unfold in_range. lia. }
    unfold bind in E1.
    rewrite (load_Some _ _ _ Lx0), (load_Some _ _ _ Ly0) in E1.
    apply store_inv in E1 as [-> _]. split.
    + intros k Hk. unfold in_range in Hk.
      rewrite lookup_insert_ne by lia. apply Hout. unfold in_range. lia.
    + intros i xi yi Hi Exi Eyi. destruct (decide (i = j)) as [-> | Hne].
      * rewrite lookup_insert_eq. congruence.
      * rewrite lookup_insert_ne by lia. apply Hin; [lia | done | done].
Qed.

(** ** Integer element types *)

Section IntegerOperations.
Context {width : Z} {word : word.word width} {word_ok : word.ok word}.
Context {pwidth : Z} {pword : word.word pwidth} {pword_ok : word.ok pword}.
Local Open Scope Z_scope.

Add Ring integer_ring : (word.ring_theory (word := word)).

Lemma integer_products (val : word -> Z) (init : word) (l : list (word * word)) :
  (forall a : word, word.of_Z (val a) = a) ->
  foldl (fun result p => add result (mul p.1 p.2)) init l
  = word.of_Z (val init + foldr (fun p s => val p.1 * val p.2 + s) 0 l).
Proof.
  intros Hval. revert init. induction l as [|[a b] l IH]; intros init; simpl.
  - by rewrite Z.add_0_r, Hval.
  - rewrite IH. rewrite !word.ring_morph_add, !word.ring_morph_mul, !Hval.
    simpl. by rewrite word.add_assoc.
Qed.

(** X8: on integer buffers [dot] is exact modulo [2 ^ width]: read as an
    unsigned number the result is the mathematical sum of the products
    reduced modulo [2 ^ width], and read as a signed number it is the
    mathematical sum of the signed products whenever that sum is
    representable, whatever happened to the intermediate values. *)
Theorem integer_dot_exact (n : nat) (x y : ptr) (xs ys : list word)
    (h : gmap nat word) :
  buffer h x xs -> buffer h y ys -> (n <= length xs)%nat -> (n <= length ys)%nat ->
  exists r : word,
    dot n x y h = Some (r, h)
    /\ word.unsigned r
       = exact_dot word.unsigned (take n xs) (take n ys) mod 2 ^ width
    /\ (- 2 ^ (width - 1) <= exact_dot word.signed (take n xs) (take n ys)
          < 2 ^ (width - 1) ->
        word.signed r = exact_dot word.signed (take n xs) (take n ys)).
Proof.
  intros Hx Hy Hnx Hny. eexists. split; [by apply dot_spec|].
  unfold dot_of_lists, exact_dot. split.
  - rewrite (integer_products word.unsigned) by apply word.of_Z_unsigned.
    simpl. rewrite word.unsigned_of_Z, word.unsigned_of_Z_0. reflexivity.
  - intros Hfit.
    rewrite (integer_products word.signed) by apply word.of_Z_signed.
    simpl. rewrite (word.signed_of_Z 0), word.swrap_inrange
      by (pose proof (word.half_modulus_pos (word := word)); lia).
    rewrite word.signed_of_Z. by apply word.swrap_inrange.
Qed.

(** X9: on integer buffers two scalings compose into one: [scale(n, a, x)]
    followed by [scale(n, b, x)] behaves as [scale(n, a * b, x)], on every
    store. *)
Theorem integer_scale_composes (n : nat) (a b : word) (x : ptr) (h : gmap nat word) :
  bind (scale n a x) (fun _ => scale n b x) h = scale n (word.mul a b) x h.
Proof.
  unfold bind. destruct (scale n a x h) as [[[] h1]|] eqn:E1.
  - destruct (scale_returns_inv _ _ _ _ _ _ E1) as [_ Hx].
    destruct (allocated_buffer h x n Hx) as (xs & Hbx & Hlx).
    destruct (scale_spec n a x xs h) as (h1' & E1' & Hout1 & Hin1);
      [done | lia|].
    assert (h1' = h1) as -> by congruence.
    assert (Hb1 : buffer h1 x ((fun v => mul v a) <$> xs)).
    { intros i v Hv. apply list_lookup_fmap_Some in Hv as (xi & -> & Hxi).
      apply Hin1; [|done]. apply lookup_lt_Some in Hxi. lia. }
    destruct (scale_spec n b x _ h1 Hb1) as (h2 & E2 & Hout2 & Hin2);
      [rewrite length_fmap; lia|].
    destruct (scale_spec n (word.mul a b) x xs h) as (h3 & E3 & Hout3 & Hin3);
      [done | lia|].
    rewrite E2, E3. do 2 f_equal. apply map_eq. intros k.
    destruct (decide (in_range x n k)) as [Hk | Hk].
    + unfold in_range in Hk.
      destruct (buffer_lookup h x xs (k - x) Hbx) as (v & Ev & _); [lia|].
      replace k with (x + (k - x))%nat by lia.
      rewrite (Hin2 (k - x)%nat (mul v a)), (Hin3 (k - x)%nat v);
        [| lia | done | lia | by rewrite list_lookup_fmap, Ev].
      simpl. by rewrite word.mul_assoc.
    + by rewrite Hout2, Hout1, Hout3.
  - destruct (scale n (word.mul a b) x h) as [[[] h3]|] eqn:E3; [|done].
    destruct (scale_returns_inv _ _ _ _ _ _ E3) as [_ Hx].
    destruct (allocated_buffer h x n Hx) as (xs & Hbx & Hlx).
    destruct (scale_spec n a x xs h) as (h1 & E1' & _); [done | lia|].
    congruence.
Qed.

(** X10: on integer buffers [mult_incr(n, 0, x, y)] changes nothing: it
    returns with the store as it was, for any placement of [x] and [y] whose
    cells are allocated. *)
Theorem integer_mult_incr_zero (n : nat) (x y : ptr) (h : gmap nat word) :
  allocated h x n -> allocated h y n ->
  mult_incr n (word.of_Z 0) x y h = Some (tt, h).
Proof.
  intros Hx Hy. unfold mult_incr.
  destruct (for_loop_total (fun _ (_ : unit) h0 => h0 = h)
    (fun i _ =>
       xi <- load (x + i)%nat ;; yi <- load (y + i)%nat ;;
       store (y + i)%nat (add yi (mul (word.of_Z 0) xi)))
    n 0%nat tt h) as ([] & h' & E & ->); [done | | done].
  intros j [] h0 Hj ->.
  destruct (Hx j) as [xj Lx]; [lia|]. destruct (Hy j) as [yj Ly]; [lia|].
  assert (Hv : word.add yj (word.mul (word.of_Z 0) xj) = yj).
  { apply word.unsigned_inj.
    rewrite word.unsigned_add, word.unsigned_mul, word.unsigned_of_Z_0.
    rewrite Z.mul_0_l. unfold word.wrap. rewrite Zmod_0_l, Z.add_0_r.
    apply Z.mod_small, word.unsigned_range. }
  exists tt, h. split; [|done].
  unfold bind. rewrite (load_Some _ _ _ Lx), (load_Some _ _ _ Ly).
  rewrite (store_Some _ _ yj) by done. simpl. rewrite Hv.
  do 2 f_equal. apply insert_id. exact Ly.
Qed.

(** X11: filling an integer buffer with [c] and summing it in an integer
    accumulator gives [n * c] modulo the accumulator's [2 ^ pwidth]. *)
Theorem integer_sum_of_fill (n : nat) (c : word) (x : ptr) (h : gmap nat word) :
  allocated h x n ->
  exists (h' : gmap nat word) (r : pword),
    set n c x h = Some (tt, h')
    /\ sum (promote := unsigned_promote) n x h' = Some (r, h')
    /\ word.unsigned r = (Z.of_nat n * word.unsigned c) mod 2 ^ pwidth.
Proof.
  intros Hx. destruct (allocated_buffer h x n Hx) as (xs & Hbx & Hlx).
  destruct (set_spec n c x xs h) as (h' & E & _ & Hb); [done | lia|].
  exists h'. eexists. split; [done|].
  split; [apply (sum_spec n x (replicate n c)); [done | by rewrite length_replicate]|].
  rewrite take_ge by (rewrite length_replicate; lia).
  rewrite unsigned_accumulate. simpl. rewrite word.unsigned_of_Z_0.
  f_equal. clear. induction n as [|n IH]; [done|].
  cbn [replicate exact_sum foldr] in *. unfold exact_sum in IH. lia.
Qed.

(** X13: on integer buffers that do not overlap, increments add up:
    [mult_incr(n, a, x, y)] followed by [mult_incr(n, b, x, y)] behaves as
    [mult_incr(n, a + b, x, y)]. *)
Theorem integer_mult_incr_composes (n : nat) (a b : word) (x y : ptr)
    (h : gmap nat word) :
  allocated h x n -> allocated h y n ->
  (x + n <= y \/ y + n <= x)%nat ->
  bind (mult_incr n a x y) (fun _ => mult_incr n b x y) h
  = mult_incr n (word.add a b) x y h.
Proof.
  intros Hx Hy Hdisj.
  destruct (allocated_buffer h x n Hx) as (xs & Hbx & Hlx).
  destruct (allocated_buffer h y n Hy) as (ys & Hby & Hly).
  destruct (mult_incr_effect n a x y xs ys h) as (h1 & E1 & Hout1 & Hin1);
    [done | done | lia | lia | lia|].
  assert (Hbx1 : buffer h1 x xs).
  { intros i v Hv. rewrite Hout1; [by apply Hbx|].
    apply lookup_lt_Some in Hv. unfold in_range. lia. }
  assert (Hby1 : buffer h1 y (zip_with (fun yi xi => add yi (mul a xi)) ys xs)).
  { intros i v Hv. apply lookup_zip_with_Some in Hv as (yi & xi & -> & Hyi & Hxi).
    apply Hin1; [|done|done]. apply lookup_lt_Some in Hxi. lia. }
  destruct (mult_incr_effect n b x y xs _ h1 Hbx1 Hby1)
    as (h2 & E2 & Hout2 & Hin2);
    [lia | rewrite length_zip_with; lia | lia|].
  destruct (mult_incr_effect n (word.add a b) x y xs ys h)
    as (h3 & E3 & Hout3 & Hin3); [done | done | lia | lia | lia|].
  unfold bind. rewrite E1, E2, E3. do 2 f_equal. apply map_eq. intros k.
  destruct (decide (in_range y n k)) as [Hk | Hk].
  - unfold in_range in Hk.
    destruct (buffer_lookup h x xs (k - y) Hbx) as (xi & Exi & _); [lia|].
    destruct (buffer_lookup h y ys (k - y) Hby) as (yi & Eyi & _); [lia|].
    replace k with (y + (k - y))%nat by lia.
    rewrite (Hin2 (k - y)%nat xi (add yi (mul a xi))), (Hin3 (k - y)%nat xi yi);
      [| lia | done | done | lia | done
       | by rewrite lookup_zip_with, Eyi; simpl; rewrite Exi].
    f_equal. simpl. ring.
  - by rewrite Hout2, Hout1, Hout3.
Qed.

End IntegerOperations.

(** ** The alias [tick::vector_operations] *)


(** ** Instances of the further properties on concrete inputs *)

Lemma dot_accumulates_products_witness :
  let xs := double_of_Z <$> [1; 2; 3]%Z in
  let ys := double_of_Z <$> [4; 5; 6]%Z in
  let h : gmap nat double := map_seq 0 (xs ++ ys) in
  dot (scalar := double_scalar) 3 0 3 h = Some (double_of_Z 32, h).
Proof.
  intros xs ys h.
  rewrite (dot_accumulates_products (scalar := double_scalar) 3 0 3 xs ys h).
  - vm_compute. reflexivity.
  - apply (buffer_app_l h 0 xs ys), buffer_map_seq.
  - apply (buffer_app_r h 0 xs ys), buffer_map_seq.
  - simpl. lia.
  - simpl. lia.
Defined.

Lemma scale_multiplies_each_element_witness :
  let xs := double_of_Z <$> [1; 2; 3]%Z in
  let h : gmap nat double := map_seq 4 xs in
  exists h',
    scale (scalar := double_scalar) 2 (double_of_Z 5) 4 h = Some (tt, h')
    /\ (forall i xi, i < 2 -> xs !! i = Some xi ->
          h' !! (4 + i) = Some (mul (Scalar := double_scalar) xi (double_of_Z 5)))
    /\ (forall a, ~ (4 <= a < 4 + 2) -> h' !! a = h !! a).
Proof.
  intros xs h.
  apply (scale_multiplies_each_element (scalar := double_scalar) 2
           (double_of_Z 5) 4 xs h).
  - apply buffer_map_seq.
  - simpl. lia.
Defined.

Lemma set_fills_with_alpha_witness :
  let xs := double_of_Z <$> [1; 2; 3]%Z in
  let h : gmap nat double := map_seq 4 xs in
  exists h',
    set 2 (double_of_Z 7) 4 h = Some (tt, h')
    /\ (forall i, i < 2 -> h' !! (4 + i) = Some (double_of_Z 7))
    /\ (forall a, ~ (4 <= a < 4 + 2) -> h' !! a = h !! a).
Proof.
  intros xs h.
  apply (set_fills_with_alpha 2 (double_of_Z 7) 4 xs h).
  - apply buffer_map_seq.
  - simpl. lia.
Defined.

Lemma writes_keep_the_allocation_witness :
  let h : gmap nat double := map_seq 0 (double_of_Z <$> [1; 2; 3; 4]%Z) in
  exists h',
    mult_incr (scalar := double_scalar) 2 (double_of_Z 3) 0 2 h = Some (tt, h')
    /\ dom h' = dom h.
Proof.
  intros h.
  destruct (mult_incr (scalar := double_scalar) 2 (double_of_Z 3) 0 2 h)
    as [[[] h']|] eqn:E; [|vm_compute in E; discriminate].
  exists h'. split; [reflexivity|].
  apply (writes_keep_the_allocation (scalar := double_scalar) 2 (double_of_Z 3)
           0 2 h h' tt).
  right. right. exact E.
Defined.


Lemma integer_dot_exact_witness :
  let xs : list Naive.word32 := word.of_Z <$> [65536; 3]%Z in
  let ys : list Naive.word32 := word.of_Z <$> [65536; 5]%Z in
  let h : gmap nat Naive.word32 := map_seq 0 (xs ++ ys) in
  exists r : Naive.word32,
    dot 2 0 2 h = Some (r, h)
    /\ word.unsigned r = (exact_dot word.unsigned (take 2 xs) (take 2 ys)
                          mod 2 ^ 32)%Z
    /\ ((- 2 ^ (32 - 1) <= exact_dot word.signed (take 2 xs) (take 2 ys)
           < 2 ^ (32 - 1))%Z ->
        word.signed r = exact_dot word.signed (take 2 xs) (take 2 ys)).
Proof.
  intros xs ys h.
  apply (integer_dot_exact (word_ok := Naive.word32_ok) 2 0 2 xs ys h).
  - apply (buffer_app_l h 0 xs ys), buffer_map_seq.
  - apply (buffer_app_r h 0 xs ys), buffer_map_seq.
  - simpl. lia.
  - simpl. lia.
Defined.

Lemma integer_mult_incr_zero_witness :
  let h : gmap nat Naive.word32 := map_seq 0 (word.of_Z <$> [7; 8; 9]%Z) in
  mult_incr 2 (word.of_Z 0) 0 1 h = Some (tt, h).
Proof.
  intros h.
  apply (integer_mult_incr_zero (word_ok := Naive.word32_ok) 2 0 1 h).
  - apply (buffer_allocated h 0 (word.of_Z <$> [7; 8; 9]%Z) 2);
      [apply buffer_map_seq | simpl; lia].
  - intros i Hi. destruct i as [|[|i]]; [vm_compute; eauto | vm_compute; eauto | lia].
Defined.

Lemma integer_sum_of_fill_witness :
  let h : gmap nat Naive.word32 := map_seq 0 (word.of_Z <$> [7; 8; 9]%Z) in
  exists (h' : gmap nat Naive.word32) (r : Naive.word64),
    set 3 (word.of_Z 4294967295) 0 h = Some (tt, h')
    /\ sum (promote := unsigned_promote) 3 0 h' = Some (r, h')
    /\ word.unsigned r
       = ((Z.of_nat 3 * word.unsigned (word.of_Z (word := Naive.word32) 4294967295))
          mod 2 ^ 64)%Z.
Proof.
  intros h.
  apply (integer_sum_of_fill (pword_ok := Naive.word64_ok) 3
           (word.of_Z 4294967295) 0 h).
  apply (buffer_allocated h 0 (word.of_Z <$> [7; 8; 9]%Z) 3);
    [apply buffer_map_seq | simpl; lia].
Defined.


Lemma integer_mult_incr_composes_witness :
  let h : gmap nat Naive.word32 := map_seq 0 (word.of_Z <$> [1; 2; 10; 20]%Z) in
  bind (mult_incr 2 (word.of_Z 3) 0 2) (fun _ => mult_incr 2 (word.of_Z 4) 0 2) h
  = mult_incr 2 (word.add (word.of_Z 3) (word.of_Z 4)) 0 2 h.
Proof.
  intros h.
  apply (integer_mult_incr_composes (word_ok := Naive.word32_ok) 2
           (word.of_Z 3) (word.of_Z 4) 0 2 h).
  - apply (buffer_allocated h 0 (word.of_Z <$> [1; 2; 10; 20]%Z) 2);
      [apply buffer_map_seq | simpl; lia].
  - intros i Hi. destruct i as [|[|i]]; [vm_compute; eauto | vm_compute; eauto | lia].
  - lia.
Defined.

Lemma integer_scale_composes_witness :
  let h : gmap nat Naive.word32 := map_seq 0 (word.of_Z <$> [7; 8; 9]%Z) in
  bind (scale 2 (word.of_Z 3) 1) (fun _ => scale 2 (word.of_Z 5) 1) h
  = scale 2 (word.mul (word.of_Z 3) (word.of_Z 5)) 1 h.
Proof.
  intros h.
  exact (integer_scale_composes (word_ok := Naive.word32_ok) 2
           (word.of_Z 3) (word.of_Z 5) 1 h).
Defined.
